(** * Annotation simplification and reading-order reconstruction

    A shallow embedding of [process_annotations.py]: the text aggregator
    that merges word children into their parent's [text], the bounding-box
    normaliser, and the column-aware reading-order reconstruction, followed
    by the properties of the page transformation
    [simplify_annotations_data].

    Modelling conventions.
    - A JSON object is a record whose optional keys are [option] fields; a
      JSON object used as a dictionary is a [gmap] when only lookups matter
      and an association list when the iteration order is observable.
    - A JSON number is a Python [int] (unbounded, [Z]) or a Python [float]
      (IEEE binary64, the kernel's primitive [float]).  Conversions and the
      product [float * int] are the binary64 ones; an operation on which
      Python raises ([int] of a NaN or an infinity, [float] of an integer
      beyond the binary64 range) returns [None].
    - The horizontal centre [(ulx + lrx) / 2.0] of an absolute box, the
      running mean [sum(...) / len(...)] of the centres of a column and the
      distance of a centre to it are binary64 values, computed with the
      operations of the source in their order; [sum] adds from left to
      right.  A float is compared with an int by value.
    - [list.sort] is stable; it is modelled by a stable insertion sort, which
      returns the same list as any other stable sort.
    - [sub_categories] keeps the order of its entries, which the text
      extraction follows; its keys are distinct, as those of a Python dict
      are. *)

From Stdlib Require Import ZArith QArith Qminmax Qcanon Lia.
From Stdlib Require Import Floats.PrimFloat Floats.SpecFloat Floats.FloatOps.
From Stdlib Require Import Floats.FloatAxioms.
From stdpp Require Import gmap strings list sorting.

Local Open Scope Z_scope.

(** ** Python numbers *)

Inductive num : Type :=
  | PyInt (z : Z)
  | PyFloat (f : float).

(** [float(z)] for a Python int: round to nearest, ties to even;
    [OverflowError] when the integer is beyond the binary64 range. *)
Definition float_of_Z (z : Z) : option float :=
  let f := SF2Prim (binary_normalize prec emax z 0 false) in
  if PrimFloat.is_infinity f then None else Some f.

(** [int(f)] for a Python float: truncation towards zero; [ValueError] on a
    NaN and [OverflowError] on an infinity. *)
Definition Z_of_float (f : float) : option Z :=
  match Prim2SF f with
  | S754_zero _ => Some 0
  | S754_finite s m e =>
      let v := if 0 <=? e then Z.pos m * 2 ^ e else Z.pos m / 2 ^ (- e) in
      Some (if s then - v else v)
  | S754_infinity _ => None
  | S754_nan => None
  end.

Definition py_int (x : num) : option Z :=
  match x with
  | PyInt z => Some z
  | PyFloat f => Z_of_float f
  end.

Definition py_float (x : num) : option float :=
  match x with
  | PyInt z => float_of_Z z
  | PyFloat f => Some f
  end.

(** [a - b]: exact on two ints, binary64 otherwise. *)
Definition py_sub (a b : num) : option num :=
  match a, b with
  | PyInt x, PyInt y => Some (PyInt (x - y))
  | _, _ =>
      fa ← py_float a; fb ← py_float b; Some (PyFloat (PrimFloat.sub fa fb))
  end.

(** [int(f * w)] for a float [f] and an int [w]. *)
Definition scale (f : float) (w : Z) : option Z :=
  fw ← float_of_Z w; Z_of_float (PrimFloat.mul f fw).

(** ** Data model *)

(** A value of [sub_categories]: a mapping with optional [value] and
    [category_id] keys, or anything else. *)
Inductive SubCategory : Type :=
  | SubCatDict (value : option string) (category_id : option Z)
  | SubCatOther.

Record BBox : Type := {
  ulx : option num;
  uly : option num;
  lrx : option num;
  lry : option num;
  absolute_coords : option bool
}.

Record Annotation : Type := {
  _annotation_id : string;
  category_name : option string;
  bounding_box : option BBox;
  sub_categories : option (list (string * SubCategory));
  ann_value : option string;
  relationships : option (gmap string (list string));
  text : option string
}.

Record Page : Type := {
  _bbox : option BBox;
  annotations : option (list Annotation)
}.

(** ** Text and reading-order extraction *)

(** The first sub-category, in iteration order, that is a mapping with a
    [value] key. *)
Fixpoint first_value (subs : list (string * SubCategory)) : option string :=
  match subs with
  | [] => None
  | (_, SubCatDict (Some v) _) :: _ => Some v
  | _ :: rest => first_value rest
  end.

Definition extract_word_text (word_annotation : Annotation) : string :=
  match from_option first_value None (sub_categories word_annotation) with
  | Some v => v
  | None =>
      match ann_value word_annotation with
      | Some v => v
      | None => ""
      end
  end.

Fixpoint dict_get {V} (key : string) (d : list (string * V)) : option V :=
  match d with
  | [] => None
  | (k, v) :: rest => if decide (k = key) then Some v else dict_get key rest
  end.

Definition sentinel : Z := 999999.

Definition extract_reading_order (word_annotation : Annotation) : Z :=
  match sub_categories word_annotation with
  | Some subs =>
      match dict_get "reading_order" subs with
      | Some (SubCatDict _ (Some cid)) => cid
      | _ => sentinel
      end
  | None => sentinel
  end.

(** ** Stable sorting

    [list.sort(key=...)] is stable: elements with equal keys keep their
    relative order.  [insert_sorted] places an element before the first
    element that is not smaller, so [stable_sort], which inserts from the
    right, is stable. *)

Section StableSort.
Context {A : Type} (le : A → A → bool).

Fixpoint insert_sorted (x : A) (l : list A) : list A :=
  match l with
  | [] => [x]
  | y :: rest => if le x y then x :: y :: rest else y :: insert_sorted x rest
  end.

Definition stable_sort (l : list A) : list A := foldr insert_sorted [] l.
End StableSort.

(** The order of the pairs of keys [(k2, k1)]: by the second order first,
    ties broken by the first order. *)
Definition lex_le {A : Type} (le1 le2 : A → A → bool) (x y : A) : bool :=
  le2 x y && (negb (le2 y x) || le1 x y).

(** ** Text aggregator *)

(** One entry of [word_data]. *)
Record WordEntry : Type := {
  w_text : string;
  w_reading_order : Z
}.

Definition le_reading_order (a b : WordEntry) : bool :=
  w_reading_order a <=? w_reading_order b.

(** The annotation objects of a page are shared between the page's list and
    the index: the store is the list itself and the index maps an identifier
    to the position of its object, the last one when an identifier repeats. *)
Definition annotation_map (anns : list Annotation) : gmap string nat :=
  foldl (λ m ia, <[_annotation_id ia.2 := ia.1]> m) ∅ (imap pair anns).

Definition word_entry (store : list Annotation) (amap : gmap string nat)
    (child_id : string) : option WordEntry :=
  child ← (amap !! child_id) ≫= (store !!.);
  if decide (category_name child = Some "word") then
    let text_value := extract_word_text child in
    let reading_order := extract_reading_order child in
    if decide (text_value = "") then None
    else Some {| w_text := text_value; w_reading_order := reading_order |}
  else None.

Definition collect_word_data (store : list Annotation)
    (amap : gmap string nat) (child_ids : list string) : list WordEntry :=
  omap (word_entry store amap) child_ids.

Definition merged_text (word_data : list WordEntry) : string :=
  String.concat " " (w_text <$> stable_sort le_reading_order word_data).

(** The parent after a successful aggregation: [text] assigned, the [child]
    key popped, [relationships] popped when nothing else is left in it. *)
Definition with_merged_text (a : Annotation) (new_text : string) : Annotation :=
  let rels := delete "child" (default ∅ (relationships a)) in
  {| _annotation_id := _annotation_id a;
     category_name := category_name a;
     bounding_box := bounding_box a;
     sub_categories := sub_categories a;
     ann_value := ann_value a;
     relationships := if decide (rels = ∅) then None else Some rels;
     text := Some new_text |}.

(** The child list of an annotation: [relationships["child"]] when the key
    is there. *)
Definition child_list (a : Annotation) : option (list string) :=
  default ∅ (relationships a) !! "child".

(** One iteration of the loop over the page's annotations, on the object at
    position [i]; the state is the store and [child_ids_to_remove]. *)
Definition aggregate_at (amap : gmap string nat)
    (st : list Annotation * gset string) (i : nat)
    : list Annotation * gset string :=
  let '(store, to_remove) := st in
  match store !! i with
  | None => st
  | Some annotation =>
      match child_list annotation with
      | None => st
      | Some child_ids =>
          let to_remove' := to_remove ∪ list_to_set child_ids in
          match collect_word_data store amap child_ids with
          | [] => (store, to_remove')
          | word_data =>
              (<[i := with_merged_text annotation (merged_text word_data)]> store,
               to_remove')
          end
      end
  end.

Definition aggregate_all (anns : list Annotation)
    : list Annotation * gset string :=
  foldl (aggregate_at (annotation_map anns)) (anns, ∅) (seq 0 (length anns)).

(** The loop seen from one annotation: what it does to the annotation [a]
    of the page [anns], and the identifiers it collects. *)
Definition aggregate_one (anns : list Annotation) (a : Annotation)
    : Annotation :=
  match child_list a with
  | None => a
  | Some child_ids =>
      match collect_word_data anns (annotation_map anns) child_ids with
      | [] => a
      | word_data => with_merged_text a (merged_text word_data)
      end
  end.

Definition child_ids_of (a : Annotation) : list string :=
  default [] (child_list a).

Definition referenced_children (anns : list Annotation) : gset string :=
  list_to_set (anns ≫= child_ids_of).

(** The fields of an annotation that the loop reads of a child. *)
Definition same_source_fields (a b : Annotation) : Prop :=
  category_name a = category_name b
  ∧ sub_categories a = sub_categories b
  ∧ ann_value a = ann_value b.

(** Removal of the consumed children; skipped when nothing is to remove. *)
Definition remove_children (store : list Annotation) (to_remove : gset string)
    : list Annotation :=
  if decide (to_remove = ∅) then store
  else filter (λ a, _annotation_id a ∉ to_remove) store.

(** What is left of a page after aggregation and removal. *)
Definition survivors (anns : list Annotation) : list Annotation :=
  remove_children (aggregate_one anns <$> anns) (referenced_children anns).

(** ** Bounding-box normaliser *)

Record PageBox : Type := {
  page_ulx : num;
  page_uly : num;
  page_lrx : num;
  page_lry : num
}.

Record AbsBox : Type := {
  abs_ulx : Z;
  abs_uly : Z;
  abs_lrx : Z;
  abs_lry : Z
}.

Definition empty_bbox : BBox :=
  {| ulx := None; uly := None; lrx := None; lry := None;
     absolute_coords := None |}.

Definition get_page_bbox (d : Page) : PageBox :=
  let bbox := default empty_bbox (_bbox d) in
  {| page_ulx := default (PyInt 0) (ulx bbox);
     page_uly := default (PyInt 0) (uly bbox);
     page_lrx := default (PyInt 1000) (lrx bbox);
     page_lry := default (PyInt 1000) (lry bbox) |}.

(** [max(1, int(hi - lo))]. *)
Definition page_extent (lo hi : num) : option Z :=
  d ← py_sub hi lo; n ← py_int d; Some (Z.max 1 n).

Definition page_width (page_bbox : PageBox) : option Z :=
  page_extent (page_ulx page_bbox) (page_lrx page_bbox).

Definition page_height (page_bbox : PageBox) : option Z :=
  page_extent (page_uly page_bbox) (page_lry page_bbox).

(** [int(bbox.get(k, 0))]. *)
Definition coord_as_is (c : option num) : option Z :=
  py_int (default (PyInt 0) c).

(** [int(float(bbox.get(k, 0)) * extent)]. *)
Definition coord_scaled (c : option num) (extent : Z) : option Z :=
  f ← py_float (default (PyInt 0) c); scale f extent.

Definition to_absolute_bbox (bbox : BBox) (page_bbox : PageBox)
    : option AbsBox :=
  page_w ← page_width page_bbox;
  page_h ← page_height page_bbox;
  if default true (absolute_coords bbox) then
    x1 ← coord_as_is (ulx bbox);
    y1 ← coord_as_is (uly bbox);
    x2 ← coord_as_is (lrx bbox);
    y2 ← coord_as_is (lry bbox);
    Some {| abs_ulx := x1; abs_uly := y1; abs_lrx := x2; abs_lry := y2 |}
  else
    x1 ← coord_scaled (ulx bbox) page_w;
    y1 ← coord_scaled (uly bbox) page_h;
    x2 ← coord_scaled (lrx bbox) page_w;
    y2 ← coord_scaled (lry bbox) page_h;
    Some {| abs_ulx := x1; abs_uly := y1; abs_lrx := x2; abs_lry := y2 |}.

(** ** Reading-order reconstructor *)

(** [float(n)] for the length of a list, which is far below the binary64
    range. *)
Definition float_of_nat (n : nat) : float :=
  SF2Prim (binary_normalize prec emax (Z.of_nat n) 0 false).

(** [f <= n] for a float and an int: Python compares the two by value,
    without rounding the int. *)
Definition float_le_Z (f : float) (n : Z) : bool :=
  match Prim2SF f with
  | S754_zero _ => 0 <=? n
  | S754_finite s m e =>
      let sm := if s then Z.neg m else Z.pos m in
      if 0 <=? e then sm * 2 ^ e <=? n else sm <=? n * 2 ^ (- e)
  | S754_infinity s => s
  | S754_nan => false
  end.

(** An entry of [items]: the annotation, its absolute box, its horizontal
    centre and its top. *)
Record Item : Type := {
  it_ann : Annotation;
  it_abs : AbsBox;
  it_cx : float;
  it_yt : Z
}.

(** [(absb["ulx"] + absb["lrx"]) / 2.0]: the sum of the two ints is exact,
    its conversion to a float rounds and raises beyond the binary64 range,
    the division is the binary64 one. *)
Definition x_center (absb : AbsBox) : option float :=
  s ← float_of_Z (abs_ulx absb + abs_lrx absb); Some (s / 2)%float.

Definition make_item (page_bbox : PageBox) (ann : Annotation) : option Item :=
  let bbox := default empty_bbox (bounding_box ann) in
  absb ← to_absolute_bbox bbox page_bbox;
  cx ← x_center absb;
  Some {| it_ann := ann; it_abs := absb; it_cx := cx; it_yt := abs_uly absb |}.

Record Column : Type := {
  center : float;
  members : list Item
}.

(** [sum(m["cx"] for m in members) / len(members)]: [sum] starts from 0 and
    adds the centres from left to right. *)
Definition mean_cx (ms : list Item) : float :=
  (foldl PrimFloat.add 0 (it_cx <$> ms) / float_of_nat (length ms))%float.

Definition add_member (it : Item) (col : Column) : Column :=
  let ms := members col ++ [it] in
  {| center := mean_cx ms; members := ms |}.

(** [abs(it["cx"] - col["center"]) <= column_threshold]. *)
Definition within (threshold : Z) (it : Item) (col : Column) : bool :=
  float_le_Z (abs (it_cx it - center col)) threshold.

(** The inner loop: the first column, in creation order, whose centre is
    within the threshold receives the item; [None] when no column does. *)
Fixpoint place (threshold : Z) (it : Item) (cols : list Column)
    : option (list Column) :=
  match cols with
  | [] => None
  | col :: rest =>
      if within threshold it col then Some (add_member it col :: rest)
      else (col ::.) <$> place threshold it rest
  end.

Definition cluster_step (threshold : Z) (cols : list Column) (it : Item)
    : list Column :=
  match place threshold it cols with
  | Some cols' => cols'
  | None => cols ++ [{| center := it_cx it; members := [it] |}]
  end.

Definition cluster (threshold : Z) (items : list Item) : list Column :=
  foldl (cluster_step threshold) [] items.

(** The binary64 value that the literal [0.08] denotes. *)
Definition ratio : float := 0x1.47ae147ae147bp-4%float.

(** [max(int(0.08 * page_w), 60)]. *)
Definition column_threshold (page_bbox : PageBox) : option Z :=
  page_w ← page_width page_bbox;
  t ← scale ratio page_w;
  Some (Z.max t 60).

(** The order of a sort by a float key: the sort puts an element before an
    earlier one only when its key is smaller ([<]). *)
Definition float_le (x y : float) : bool := negb (y <? x)%float.

Definition le_cx (a b : Item) : bool := float_le (it_cx a) (it_cx b).

Definition le_center (a b : Column) : bool := float_le (center a) (center b).

(** The order of the keys [(yt, abs["ulx"])]. *)
Definition le_top_left (a b : Item) : bool :=
  (it_yt a <? it_yt b)
  || ((it_yt a =? it_yt b) && (abs_ulx (it_abs a) <=? abs_ulx (it_abs b))).

Definition emit (columns : list Column) : list Annotation :=
  columns ≫= (λ col, it_ann <$> stable_sort le_top_left (members col)).

Definition order_parents (parents : list Annotation) (page_bbox : PageBox)
    : option (list Annotation) :=
  items ← mapM (make_item page_bbox) parents;
  threshold ← column_threshold page_bbox;
  let items := stable_sort le_cx items in
  let columns := cluster threshold items in
  let columns := stable_sort le_center columns in
  Some (emit columns).

(** ** The page transformation *)

Definition simplify_annotations_data (data : Page) : option Page :=
  let '(store, to_remove) := aggregate_all (default [] (annotations data)) in
  let kept := remove_children store to_remove in
  ordered ← order_parents kept (get_page_bbox data);
  Some {| _bbox := _bbox data; annotations := Some ordered |}.
(** ** Children that yield text *)

(** The identifier names a kept word that yields text: the last annotation
    of the page that bears it has the category [word] and a non-empty
    extracted text. *)
Definition yields_text (anns : list Annotation) (child_id : string) : Prop :=
  ∃ j child,
    anns !! j = Some child
    ∧ _annotation_id child = child_id
    ∧ (∀ k b, (j < k)%nat → anns !! k = Some b → _annotation_id b ≠ child_id)
    ∧ category_name child = Some "word"
    ∧ extract_word_text child ≠ "".

(** ** The normaliser in the specification's words

    Written from the text of the specification: a number is cast to an
    integer by truncating its value towards zero, the page width and height
    are [max(1, lrx - ulx)] and [max(1, lry - uly)] cast to integers, and a
    normalised coordinate is the fraction times the width or the height,
    truncated. *)

(** The value of a float that is neither a NaN nor an infinity. *)
Definition SFvalue (x : spec_float) : option Q :=
  match x with
  | S754_zero _ => Some 0%Q
  | S754_finite s m e =>
      let sm := if s then Z.neg m else Z.pos m in
      Some (if 0 <=? e then inject_Z (sm * 2 ^ e)
            else Qmake sm (2 ^ Z.to_pos (- e)))
  | S754_infinity _ => None
  | S754_nan => None
  end.

Definition float_value (f : float) : option Q := SFvalue (Prim2SF f).

(** Truncation of a rational towards zero. *)
Definition Qtruncate (q : Q) : Z := Z.quot (Qnum q) (Z.pos (Qden q)).

Definition spec_int (x : num) : option Z :=
  match x with
  | PyInt z => Some z
  | PyFloat f => Qtruncate <$> float_value f
  end.

Definition spec_extent (lo hi : num) : option Z :=
  d ← py_sub hi lo; Z.max 1 <$> spec_int d.

(** A fraction of an extent, truncated. *)
Definition spec_fraction (c : num) (extent : Z) : option Z :=
  f ← py_float c; e ← float_of_Z extent;
  Qtruncate <$> float_value (f * e)%float.

Definition spec_to_absolute (bbox : BBox) (page_bbox : PageBox)
    : option AbsBox :=
  page_w ← spec_extent (page_ulx page_bbox) (page_lrx page_bbox);
  page_h ← spec_extent (page_uly page_bbox) (page_lry page_bbox);
  let x1 := default (PyInt 0) (ulx bbox) in
  let y1 := default (PyInt 0) (uly bbox) in
  let x2 := default (PyInt 0) (lrx bbox) in
  let y2 := default (PyInt 0) (lry bbox) in
  match absolute_coords bbox with
  | Some false =>
      a ← spec_fraction x1 page_w; b ← spec_fraction y1 page_h;
      c ← spec_fraction x2 page_w; d ← spec_fraction y2 page_h;
      Some {| abs_ulx := a; abs_uly := b; abs_lrx := c; abs_lry := d |}
  | _ =>
      a ← spec_int x1; b ← spec_int y1; c ← spec_int x2; d ← spec_int y2;
      Some {| abs_ulx := a; abs_uly := b; abs_lrx := c; abs_lry := d |}
  end.

(** ** The reconstruction in the specification's words

    The steps of the specification, written from its text and not from the
    code.  Its numbers are the program's numbers: a centre, a mean and a
    distance are binary64 values. *)










(** ** Distinct centres *)

(** [R] holds of every element and every later element of the list. *)
Fixpoint pairwise {A} (R : A → A → Prop) (l : list A) : Prop :=
  match l with
  | [] => True
  | x :: rest => Forall (R x) rest ∧ pairwise R rest
  end.

(** Two centres of which one is smaller than the other. *)
Definition apart (a b : Item) : Prop :=
  (it_cx a <? it_cx b)%float || (it_cx b <? it_cx a)%float = true.

(** No two items have the same centre. *)
Definition distinct_centres (items : list Item) : Prop := pairwise apart items.

(** ** Items and columns as the specification sees them *)



(** ** Idempotence at a page *)


(** ** Sample pages *)

Definition int_box (x1 y1 x2 y2 : Z) : BBox :=
  {| ulx := Some (PyInt x1); uly := Some (PyInt y1);
     lrx := Some (PyInt x2); lry := Some (PyInt y2);
     absolute_coords := Some true |}.

Definition child_rel (children : option (list string))
    : option (gmap string (list string)) :=
  (λ cs, {[ "child" := cs ]}) <$> children.

(** A layout region, with or without a child list. *)
Definition region (id : string) (box : BBox) (children : option (list string))
    : Annotation :=
  {| _annotation_id := id; category_name := Some "text";
     bounding_box := Some box; sub_categories := None; ann_value := None;
     relationships := child_rel children; text := None |}.

(** A word as the analysis engine writes it: its text under the
    [characters] sub-category, its rank, when it has one, under
    [reading_order]. *)
Definition word (id : string) (txt : string) (rank : option Z)
    (children : option (list string)) : Annotation :=
  {| _annotation_id := id; category_name := Some "word";
     bounding_box := Some (int_box 0 0 10 10);
     sub_categories :=
       Some (("characters", SubCatDict (Some txt) None)
             :: match rank with
                | Some r => [("reading_order", SubCatDict None (Some r))]
                | None => []
                end);
     ann_value := None;
     relationships := child_rel children; text := None |}.

Definition page_of (anns : list Annotation) : Page :=
  {| _bbox := None; annotations := Some anns |}.

(** A parent whose three word children carry the ranks 3, 1, 2. *)
Definition abc_parent : Annotation :=
  region "P" (int_box 0 0 100 50) (Some ["w1"; "w2"; "w3"]).

Definition abc_page : Page :=
  page_of [abc_parent;
           word "w1" "c" (Some 3) None;
           word "w2" "a" (Some 1) None;
           word "w3" "b" (Some 2) None].

Definition abc_merged : Annotation := with_merged_text abc_parent "a b c".

(** A region [A] whose child [B] has itself a child [C]. *)
Definition nested_page : Page :=
  page_of [region "A" (int_box 0 0 100 50) (Some ["B"]);
           word "B" "b" (Some 1) (Some ["C"]);
           word "C" "c" (Some 1) None].

(** A parent with an unranked word and a word of rank 1000000. *)
Definition high_rank_page : Page :=
  page_of [region "P" (int_box 0 0 100 50) (Some ["u"; "r"]);
           word "u" "x" None None;
           word "r" "y" (Some 1000000) None].

(** Three regions with horizontal centres 100, 900 and 920. *)
Definition column_page : Page :=
  page_of [region "c" (int_box 870 0 970 50) None;
           region "b" (int_box 850 100 950 150) None;
           region "a" (int_box 50 500 150 550) None].

(** A page 1010 units wide. *)
Definition wide_box : PageBox :=
  {| page_ulx := PyInt 0; page_uly := PyInt 0;
     page_lrx := PyInt 1010; page_lry := PyInt 1000 |}.

(** The box of the normalisation example and the default page box. *)
Definition half_box : BBox :=
  {| ulx := Some (PyFloat 0.5); uly := Some (PyFloat 0);
     lrx := Some (PyFloat 1); lry := Some (PyFloat 0.5);
     absolute_coords := Some false |}.

Definition default_page_box : PageBox :=
  {| page_ulx := PyInt 0; page_uly := PyInt 0;
     page_lrx := PyInt 1000; page_lry := PyInt 1000 |}.

(** [scale_agrees n w]: on the [n] widths from [w] on, [int(0.08 * w)] is
    the integer quotient of [8 * w] by 100. *)
Fixpoint scale_agrees (n : nat) (w : Z) : bool :=
  match n with
  | O => true
  | S n' =>
      match scale ratio w with
      | Some t => t =? 8 * w / 100
      | None => false
      end && scale_agrees n' (w + 1)
  end.

Definition column_regions : list Annotation :=
  default [] (annotations column_page).

(** The reading that only the child links of top-level annotations count:
    an annotation listed only by an annotation that is itself somebody's
    child stays in the output. *)
Definition grandchildren_kept (data : Page) : Prop :=
  ∀ out ordered a b c cs_a cs_b,
    simplify_annotations_data data = Some out →
    annotations out = Some ordered →
    a ∈ default [] (annotations data) →
    b ∈ default [] (annotations data) →
    c ∈ default [] (annotations data) →
    child_list a = Some cs_a → _annotation_id b ∈ cs_a →
    child_list b = Some cs_b → _annotation_id c ∈ cs_b →
    (∀ p cs, p ∈ default [] (annotations data) → child_list p = Some cs →
             _annotation_id c ∈ cs → p = b) →
    ∃ c', c' ∈ ordered ∧ _annotation_id c' = _annotation_id c.

(** ** Further samples *)

(** A sub-category that is a mapping with a [value] key. *)
Definition has_value (e : string * SubCategory) : Prop :=
  ∃ v cid, e.2 = SubCatDict (Some v) cid.

(** The number of annotations of a page, as the caller reports it. *)
Definition annotation_count (d : Page) : nat :=
  length (default [] (annotations d)).

(** A parent whose child list names a region and an identifier that no
    annotation bears. *)
Definition silent_parent : Annotation :=
  region "Q" (int_box 0 0 100 50) (Some ["x"; "nobody"]).

Definition silent_anns : list Annotation :=
  [silent_parent; region "x" (int_box 0 0 10 10) None].

(** A parent with one word child and a second relationship. *)
Definition linked_parent : Annotation :=
  {| _annotation_id := "L"; category_name := Some "text";
     bounding_box := Some (int_box 0 0 100 50);
     sub_categories := None; ann_value := None;
     relationships := Some {[ "child" := ["w"]; "sibling" := ["s"] ]};
     text := None |}.

Definition linked_anns : list Annotation :=
  [linked_parent; word "w" "a" (Some 1) None].

(** A page box 810 wide and 1201 high, and a box given in fractions that
    are binary64 values. *)
Definition tall_page_box : PageBox :=
  {| page_ulx := PyInt 10; page_uly := PyInt 20;
     page_lrx := PyInt 820; page_lry := PyInt 1221 |}.

Definition fraction_box : BBox :=
  {| ulx := Some (PyFloat 0.3125); uly := Some (PyFloat 0.75);
     lrx := Some (PyFloat (-0.3125)); lry := Some (PyInt 1);
     absolute_coords := Some false |}.

(** A box in absolute float coordinates, without [lrx] and without the
    flag. *)
Definition float_box : BBox :=
  {| ulx := Some (PyFloat 12.75); uly := Some (PyFloat (-3.5));
     lrx := None; lry := Some (PyInt 7);
     absolute_coords := None |}.



(** Two regions whose centres differ as rationals and coincide as binary64
    values. *)
Definition twin_centres : list Annotation :=
  [region "A" (int_box 0 0 (2 ^ 53 + 1) 1) None;
   region "B" (int_box 0 0 (2 ^ 53) 1) None].

(** The items of [column_regions] on the default page. *)
Definition column_items : list Item :=
  Eval vm_compute in
    default [] (mapM (make_item default_page_box) column_regions).

(** * Properties *)

(** ** Stable sorting *)

Section StableSortFacts.
Context {A : Type} (le : A → A → bool).

Let R : relation A := λ x y, le x y = true.

Lemma insert_sorted_perm x l : insert_sorted le x l ≡ₚ x :: l.
Proof.
  induction l as [|y l IH]; simpl; [done|].
  destruct (le x y); [done|].
  rewrite IH. apply Permutation_swap.
Qed.

Lemma stable_sort_perm l : stable_sort le l ≡ₚ l.
Proof.
  induction l as [|x l IH]; simpl; [done|].
  rewrite insert_sorted_perm. by f_equiv.
Qed.

Lemma stable_sort_length l : length (stable_sort le l) = length l.
Proof. apply Permutation_length, stable_sort_perm. Qed.

Lemma insert_sorted_head x l :
  Forall (R x) l → insert_sorted le x l = x :: l.
Proof. destruct 1 as [|y l Hy _]; simpl; [done|]. by rewrite Hy. Qed.

Lemma insert_sorted_app_le x l1 l2 :
  Forall (R x) l2 →
  insert_sorted le x (l1 ++ l2) = insert_sorted le x l1 ++ l2.
Proof.
  intros H2. induction l1 as [|y l1 IH]; simpl.
  - by apply insert_sorted_head.
  - destruct (le x y); [done|]. by rewrite IH.
Qed.

Hypothesis le_total : ∀ x y, le x y = true ∨ le y x = true.
Hypothesis le_trans : ∀ x y z, le x y = true → le y z = true → le x z = true.

Lemma insert_sorted_sorted x l :
  StronglySorted R l → StronglySorted R (insert_sorted le x l).
Proof.
  induction 1 as [|y l Hl IH Hy]; simpl.
  - repeat constructor.
  - destruct (le x y) eqn:E.
    + constructor; [by constructor|].
      constructor; [done|].
      eapply Forall_impl; [exact Hy|]. intros z Hz. by eapply le_trans.
    + constructor; [done|].
      rewrite insert_sorted_perm. constructor; [|done].
      destruct (le_total x y); [congruence|done].
Qed.

Lemma stable_sort_sorted l : StronglySorted R (stable_sort le l).
Proof.
  induction l; simpl; [constructor|]. by apply insert_sorted_sorted.
Qed.

Lemma stable_sort_id l : StronglySorted R l → stable_sort le l = l.
Proof.
  induction 1 as [|x l Hl IH Hx]; simpl; [done|].
  rewrite IH. by apply insert_sorted_head.
Qed.

Lemma stable_sort_idemp l :
  stable_sort le (stable_sort le l) = stable_sort le l.
Proof. apply stable_sort_id, stable_sort_sorted. Qed.

(** Sorting a list whose first part lies below its second part sorts the
    two parts separately. *)
Lemma stable_sort_app_sep l1 l2 :
  (∀ a b, a ∈ l1 → b ∈ l2 → R a b) →
  stable_sort le (l1 ++ l2) = stable_sort le l1 ++ stable_sort le l2.
Proof.
  induction l1 as [|a l1 IH]; intros Hsep; simpl; [done|].
  rewrite IH by (intros; apply Hsep; [by right|done]).
  apply insert_sorted_app_le, Forall_forall. intros b Hb.
  apply Hsep; [by left|]. by rewrite <- (stable_sort_perm l2).
Qed.

(** Two insertions commute unless the elements are equivalent. *)
Lemma insert_sorted_comm x y l :
  ¬ (R x y ∧ R y x) →
  insert_sorted le x (insert_sorted le y l)
  = insert_sorted le y (insert_sorted le x l).
Proof.
  intros Hne. induction l as [|z l IH]; simpl.
  - destruct (le x y) eqn:Exy, (le y x) eqn:Eyx; try done.
    + destruct Hne. by split.
    + destruct (le_total x y); congruence.
  - destruct (le y z) eqn:Eyz, (le x z) eqn:Exz; simpl;
      rewrite ?Eyz, ?Exz; try done.
    + destruct (le x y) eqn:Exy, (le y x) eqn:Eyx; try done.
      * destruct Hne. by split.
      * destruct (le_total x y); congruence.
    + destruct (le x y) eqn:Exy; [|done].
      pose proof (le_trans _ _ _ Exy Eyz). congruence.
    + destruct (le y x) eqn:Eyx; [|done].
      pose proof (le_trans _ _ _ Eyx Exz). congruence.
    + by rewrite IH.
Qed.
End StableSortFacts.

(** Sorting by one key and then, stably, by a second key sorts by the pair
    of keys. *)
Section TwoKeys.
Context {A : Type} (le1 le2 : A → A → bool).
Hypothesis le1_total : ∀ x y, le1 x y = true ∨ le1 y x = true.
Hypothesis le1_trans :
  ∀ x y z, le1 x y = true → le1 y z = true → le1 x z = true.
Hypothesis le2_total : ∀ x y, le2 x y = true ∨ le2 y x = true.
Hypothesis le2_trans :
  ∀ x y z, le2 x y = true → le2 y z = true → le2 x z = true.

Lemma lex_le_total x y :
  lex_le le1 le2 x y = true ∨ lex_le le1 le2 y x = true.
Proof.
  unfold lex_le.
  destruct (le1_total x y) as [H1|H1], (le2_total x y) as [H2|H2];
    rewrite ?H1, ?H2; destruct (le2 x y), (le2 y x), (le1 x y), (le1 y x);
    simpl; auto; discriminate.
Qed.

Lemma lex_le_trans x y z :
  lex_le le1 le2 x y = true → lex_le le1 le2 y z = true →
  lex_le le1 le2 x z = true.
Proof.
  unfold lex_le. intros Hxy Hyz.
  apply andb_true_iff in Hxy as [Hxy Hxy'], Hyz as [Hyz Hyz'].
  rewrite (le2_trans _ _ _ Hxy Hyz). simpl.
  destruct (le2 z x) eqn:Ezx; simpl; [|done].
  rewrite (le2_trans _ _ _ Hyz Ezx) in Hxy'.
  rewrite (le2_trans _ _ _ Ezx Hxy) in Hyz'.
  simpl in *. by eapply le1_trans.
Qed.

Lemma insert_sorted_lex x l :
  Forall (λ z, le1 x z = true) l →
  insert_sorted le2 x l = insert_sorted (lex_le le1 le2) x l.
Proof.
  induction 1 as [|z l Hz _ IH]; simpl; [done|].
  unfold lex_le at 1. rewrite Hz, orb_true_r, andb_true_r.
  destruct (le2 x z); [done|]. by rewrite IH.
Qed.

Lemma stable_sort_insert_lex x l :
  StronglySorted (λ a b, le1 a b = true) l →
  stable_sort le2 (insert_sorted le1 x l)
  = insert_sorted (lex_le le1 le2) x (stable_sort le2 l).
Proof.
  induction 1 as [|y l Hl IH Hy]; simpl; [done|].
  destruct (le1 x y) eqn:Exy; simpl.
  - apply insert_sorted_lex.
    rewrite insert_sorted_perm, stable_sort_perm.
    constructor; [done|].
    eapply Forall_impl; [exact Hy|]. intros z Hz. by eapply le1_trans.
  - assert (le1 y x = true) as Eyx
      by (destruct (le1_total x y); [congruence|done]).
    rewrite IH.
    rewrite (insert_sorted_lex y).
    2:{ rewrite insert_sorted_perm, stable_sort_perm. by constructor. }
    rewrite (insert_sorted_lex y (stable_sort le2 l)).
    2:{ by rewrite stable_sort_perm. }
    apply insert_sorted_comm.
    + apply lex_le_total.
    + apply lex_le_trans.
    + unfold lex_le. intros [H1 H2].
      apply andb_true_iff in H1 as [H1 _], H2 as [_ H2].
      rewrite H1, Exy in H2. discriminate.
Qed.

Lemma stable_sort_two_keys l :
  stable_sort le2 (stable_sort le1 l) = stable_sort (lex_le le1 le2) l.
Proof.
  induction l as [|x l IH]; simpl; [done|].
  rewrite stable_sort_insert_lex, IH; [done|].
  by apply stable_sort_sorted.
Qed.

(** On a list sorted by the first key, a stable sort by the second key,
    a sort by the first and a sort by the second again change nothing
    more. *)
Lemma stable_sort_two_keys_again l :
  StronglySorted (λ a b, le1 a b = true) l →
  stable_sort le2 (stable_sort le1 (stable_sort le2 l)) = stable_sort le2 l.
Proof.
  intros Hl. rewrite stable_sort_two_keys.
  rewrite <- (stable_sort_id le1 l Hl) at 1 2.
  rewrite stable_sort_two_keys.
  apply stable_sort_idemp; [apply lex_le_total|apply lex_le_trans].
Qed.
End TwoKeys.

(** ** The aggregation loop

    The loop reads children through the index while it updates parents in
    the same store.  It only ever writes [text] and [relationships], and
    reads [category_name], [sub_categories] and [value]: what it reads of a
    child is what the page held on entry. *)

Lemma same_source_fields_refl a : same_source_fields a a.
Proof. by repeat split. Qed.

Lemma with_merged_text_source_fields a t :
  same_source_fields (with_merged_text a t) a.
Proof. by repeat split. Qed.

Lemma aggregate_one_source_fields anns a :
  same_source_fields (aggregate_one anns a) a.
Proof.
  unfold aggregate_one. destruct (child_list a); [|apply same_source_fields_refl].
  destruct (collect_word_data _ _ _);
    [apply same_source_fields_refl|apply with_merged_text_source_fields].
Qed.

Lemma aggregate_one_id anns a :
  _annotation_id (aggregate_one anns a) = _annotation_id a.
Proof.
  unfold aggregate_one. destruct (child_list a); [|done].
  by destruct (collect_word_data _ _ _).
Qed.

Lemma aggregate_one_bounding_box anns a :
  bounding_box (aggregate_one anns a) = bounding_box a.
Proof.
  unfold aggregate_one. destruct (child_list a); [|done].
  by destruct (collect_word_data _ _ _).
Qed.

Lemma word_entry_store store1 store2 amap c :
  Forall2 same_source_fields store1 store2 →
  word_entry store1 amap c = word_entry store2 amap c.
Proof.
  intros HF. unfold word_entry.
  destruct (amap !! c) as [i|]; simpl; [|done].
  destruct (store1 !! i) as [a|] eqn:E1, (store2 !! i) as [b|] eqn:E2; simpl.
  - destruct (Forall2_lookup_lr _ _ _ i a b HF E1 E2) as (Hc & Hs & Hv).
    unfold extract_word_text, extract_reading_order.
    by rewrite Hc, Hs, Hv.
  - apply Forall2_length in HF. apply lookup_lt_Some in E1.
    apply lookup_ge_None in E2. lia.
  - apply Forall2_length in HF. apply lookup_lt_Some in E2.
    apply lookup_ge_None in E1. lia.
  - done.
Qed.

Lemma collect_word_data_store store1 store2 amap cs :
  Forall2 same_source_fields store1 store2 →
  collect_word_data store1 amap cs = collect_word_data store2 amap cs.
Proof.
  intros HF. unfold collect_word_data.
  induction cs as [|c cs IH]; [done|].
  cbn [omap list_omap]. by rewrite (word_entry_store _ _ _ _ HF), IH.
Qed.

Lemma source_fields_prefix anns l1 l2 :
  Forall2 same_source_fields ((aggregate_one anns <$> l1) ++ l2) (l1 ++ l2).
Proof.
  apply Forall2_app.
  - apply Forall2_fmap_l, Forall_Forall2_diag, Forall_forall.
    intros; apply aggregate_one_source_fields.
  - apply Forall_Forall2_diag, Forall_forall.
    intros; apply same_source_fields_refl.
Qed.

Lemma aggregate_at_spec anns store to_remove i a :
  Forall2 same_source_fields store anns →
  store !! i = Some a →
  aggregate_at (annotation_map anns) (store, to_remove) i
  = (<[i := aggregate_one anns a]> store,
     to_remove ∪ list_to_set (child_ids_of a)).
Proof.
  intros HF Ha. unfold aggregate_at, aggregate_one, child_ids_of.
  rewrite Ha. destruct (child_list a) as [cs|]; simpl.
  - rewrite (collect_word_data_store _ _ _ _ HF).
    destruct (collect_word_data anns (annotation_map anns) cs); [|done].
    by rewrite list_insert_id.
  - rewrite list_insert_id by done. simpl. by rewrite (right_id_L ∅ (∪)).
Qed.

Lemma aggregate_prefix anns k :
  (k ≤ length anns)%nat →
  foldl (aggregate_at (annotation_map anns)) (anns, ∅) (seq 0 k)
  = ((aggregate_one anns <$> take k anns) ++ drop k anns,
     referenced_children (take k anns)).
Proof.
  induction k as [|k IH]; intros Hk.
  - simpl. by rewrite drop_0.
  - rewrite seq_S, foldl_app, IH by lia. cbn [foldl Nat.add].
    destruct (lookup_lt_is_Some_2 anns k) as [a Ha]; [lia|].
    pose proof (source_fields_prefix anns (take k anns) (drop k anns)) as HF.
    rewrite take_drop in HF.
    assert (length (aggregate_one anns <$> take k anns) = k) as Hlen
      by (rewrite length_fmap, length_take; lia).
    rewrite (aggregate_at_spec anns _ _ k a HF).
    2:{ rewrite lookup_app_r, Hlen, Nat.sub_diag by lia.
        by rewrite lookup_drop, Nat.add_0_r. }
    rewrite insert_app_r_alt, Hlen, Nat.sub_diag by lia.
    rewrite (drop_S _ _ _ Ha), (take_S_r _ _ _ Ha), fmap_app. simpl.
    rewrite <- app_assoc. simpl. f_equal.
    unfold referenced_children. rewrite bind_app, list_to_set_app_L.
    simpl. by rewrite app_nil_r.
Qed.

(** The loop as a whole: every annotation is aggregated against the page as
    it was on entry, and every child list is collected. *)
Lemma aggregate_all_spec anns :
  aggregate_all anns = (aggregate_one anns <$> anns, referenced_children anns).
Proof.
  unfold aggregate_all. rewrite aggregate_prefix by done.
  by rewrite firstn_all, drop_all, app_nil_r.
Qed.

(** ** The reconstructor reorders *)

Lemma make_item_ann page_bbox a it :
  make_item page_bbox a = Some it → it_ann it = a.
Proof.
  unfold make_item. intros H.
  destruct (to_absolute_bbox _ _) as [absb|]; simplify_eq/=.
  destruct (x_center absb); simplify_eq/=. done.
Qed.

Lemma mapM_make_item_ann page_bbox parents items :
  mapM (make_item page_bbox) parents = Some items →
  it_ann <$> items = parents.
Proof.
  intros H. apply mapM_Some in H.
  induction H as [|a it parents items Hit _ IH]; csimpl; [done|].
  by rewrite (make_item_ann _ _ _ Hit), IH.
Qed.

Lemma place_members threshold it cols cols' :
  place threshold it cols = Some cols' →
  cols' ≫= members ≡ₚ it :: (cols ≫= members).
Proof.
  revert cols'. induction cols as [|col cols IH]; intros cols' H; simpl in H.
  - done.
  - destruct (within threshold it col).
    + simplify_eq/=. rewrite <- app_assoc. simpl.
      rewrite <- Permutation_middle. done.
    + destruct (place threshold it cols) as [cols''|]; simplify_eq/=.
      rewrite (IH _ eq_refl). by rewrite Permutation_middle.
Qed.

Lemma cluster_step_members threshold cols it :
  cluster_step threshold cols it ≫= members ≡ₚ it :: (cols ≫= members).
Proof.
  unfold cluster_step. destruct (place threshold it cols) eqn:E.
  - by eapply place_members.
  - rewrite bind_app. simpl. by rewrite <- Permutation_cons_append.
Qed.

Lemma foldl_cluster_step_members threshold cols items :
  foldl (cluster_step threshold) cols items ≫= members
  ≡ₚ (cols ≫= members) ++ items.
Proof.
  revert cols. induction items as [|it items IH]; intros cols; simpl.
  - by rewrite app_nil_r.
  - rewrite IH, cluster_step_members. by rewrite <- Permutation_middle.
Qed.

Lemma cluster_members threshold items :
  cluster threshold items ≫= members ≡ₚ items.
Proof. apply (foldl_cluster_step_members threshold []). Qed.

Lemma emit_perm columns : emit columns ≡ₚ it_ann <$> (columns ≫= members).
Proof.
  unfold emit. induction columns as [|col columns IH]; csimpl; [done|].
  rewrite fmap_app, IH. by rewrite stable_sort_perm.
Qed.

Lemma order_parents_Some parents page_bbox :
  is_Some (order_parents parents page_bbox)
  ↔ Forall (λ a, is_Some (make_item page_bbox a)) parents
    ∧ is_Some (column_threshold page_bbox).
Proof.
  unfold order_parents. split.
  - intros [out H].
    destruct (mapM _ parents) as [items|] eqn:E; simplify_eq/=.
    destruct (column_threshold page_bbox) as [t|]; simplify_eq/=.
    split; [|by eexists].
    apply (mapM_is_Some_1 (make_item page_bbox)). by eexists.
  - intros [H [t ->]].
    apply (mapM_is_Some_2 (make_item page_bbox)) in H as [items ->].
    by eexists.
Qed.

Lemma order_parents_perm parents page_bbox ordered :
  order_parents parents page_bbox = Some ordered → parents ≡ₚ ordered.
Proof.
  unfold order_parents. intros H.
  destruct (mapM _ parents) as [items|] eqn:Eitems; simplify_eq/=.
  destruct (column_threshold page_bbox) as [t|]; simplify_eq/=.
  rewrite emit_perm, (stable_sort_perm le_center), cluster_members.
  rewrite stable_sort_perm.
  by rewrite (mapM_make_item_ann _ _ _ Eitems).
Qed.

(** ** The page transformation, step by step *)

Lemma simplify_annotations_data_Some data out :
  simplify_annotations_data data = Some out →
  ∃ ordered,
    out = {| _bbox := _bbox data; annotations := Some ordered |}
    ∧ order_parents (survivors (default [] (annotations data)))
        (get_page_bbox data) = Some ordered.
Proof.
  unfold simplify_annotations_data, survivors.
  rewrite aggregate_all_spec. intros H.
  destruct (order_parents _ _) as [ordered|]; simplify_eq/=. by eexists.
Qed.

Lemma elem_of_referenced_children anns c :
  c ∈ referenced_children anns
  ↔ ∃ p cs, p ∈ anns ∧ child_list p = Some cs ∧ c ∈ cs.
Proof.
  unfold referenced_children, child_ids_of.
  rewrite elem_of_list_to_set, list_elem_of_bind. split.
  - intros (p & Hc & Hp). destruct (child_list p) as [cs|] eqn:E; simpl in Hc.
    + by exists p, cs.
    + by apply elem_of_nil in Hc.
  - intros (p & cs & Hp & E & Hc). exists p. by rewrite E.
Qed.

Lemma elem_of_remove_children store to_remove a :
  a ∈ remove_children store to_remove
  ↔ a ∈ store ∧ _annotation_id a ∉ to_remove.
Proof.
  unfold remove_children. destruct (decide (to_remove = ∅)) as [->|_].
  - split; [intros; split; [done|apply not_elem_of_empty]|by intros []].
  - by rewrite list_elem_of_filter, (comm and).
Qed.

Lemma elem_of_survivors anns a :
  a ∈ survivors anns
  ↔ ∃ a0, a0 ∈ anns ∧ a = aggregate_one anns a0
          ∧ _annotation_id a0 ∉ referenced_children anns.
Proof.
  unfold survivors. rewrite elem_of_remove_children, list_elem_of_fmap. split.
  - intros [(a0 & -> & H0) Hid]. exists a0.
    by rewrite aggregate_one_id in Hid.
  - intros (a0 & H0 & -> & Hid). rewrite aggregate_one_id. eauto.
Qed.

Lemma elem_of_simplified data out ordered a :
  simplify_annotations_data data = Some out →
  annotations out = Some ordered →
  a ∈ ordered ↔ a ∈ survivors (default [] (annotations data)).
Proof.
  intros H Hout.
  destruct (simplify_annotations_data_Some _ _ H) as (ordered' & -> & Hord).
  simpl in Hout. simplify_eq. by rewrite <- (order_parents_perm _ _ _ Hord).
Qed.

(** ** Removal of referenced children *)

(** C2. When the transformation returns, no annotation of its output bears
    an identifier that occurs in the [child] list of an annotation of the
    input page, whether or not the identifier resolved, named a word, or
    contributed text. *)
Theorem children_removed data out ordered p cs c a :
  simplify_annotations_data data = Some out →
  annotations out = Some ordered →
  p ∈ default [] (annotations data) →
  child_list p = Some cs →
  c ∈ cs →
  a ∈ ordered →
  _annotation_id a ≠ c.
Proof.
  intros H Hout Hp Hcs Hc Ha.
  apply (elem_of_simplified _ _ _ _ H Hout), elem_of_survivors in Ha
    as (a0 & _ & -> & Hid).
  rewrite aggregate_one_id. intros Heq. subst c. apply Hid.
  apply elem_of_referenced_children. eauto.
Qed.

Ltac solve_elem :=
  repeat first [apply list_elem_of_here | apply list_elem_of_further].

Lemma children_removed_witness : _annotation_id abc_merged ≠ "w2".
Proof.
  apply (children_removed abc_page (page_of [abc_merged]) [abc_merged]
           abc_parent ["w1"; "w2"; "w3"] "w2" abc_merged).
  - vm_compute. reflexivity.
  - reflexivity.
  - simpl. solve_elem.
  - vm_compute. reflexivity.
  - solve_elem.
  - solve_elem.
Defined.

(** C8, as stated, fails on a page where [A] lists [B] and [B] lists [C]:
    the loop runs over [B] too, so [C] is removed. *)
Lemma grandchild_removed : ¬ grandchildren_kept nested_page.
Proof.
  intros H.
  destruct (H (page_of [with_merged_text
                          (region "A" (int_box 0 0 100 50) (Some ["B"])) "b"])
              [with_merged_text
                 (region "A" (int_box 0 0 100 50) (Some ["B"])) "b"]
              (region "A" (int_box 0 0 100 50) (Some ["B"]))
              (word "B" "b" (Some 1) (Some ["C"]))
              (word "C" "c" (Some 1) None)
              ["B"] ["C"]) as (c' & Hc' & Hid).
  - vm_compute. reflexivity.
  - reflexivity.
  - simpl. solve_elem.
  - simpl. solve_elem.
  - simpl. solve_elem.
  - vm_compute. reflexivity.
  - simpl. solve_elem.
  - vm_compute. reflexivity.
  - simpl. solve_elem.
  - intros p cs Hp Hcs Hc. simpl in Hp.
    apply elem_of_cons in Hp as [->|Hp].
    { vm_compute in Hcs. simplify_eq. apply list_elem_of_singleton in Hc.
      discriminate. }
    apply elem_of_cons in Hp as [->|Hp]; [done|].
    apply list_elem_of_singleton in Hp as ->. vm_compute in Hcs. discriminate.
  - apply list_elem_of_singleton in Hc' as ->. discriminate.
Qed.

(** C8, amended.  The child links of every annotation of the page count,
    whether or not the annotation is itself somebody's child, and nothing
    is followed further: an identifier is found in the output exactly when
    an annotation of the input bears it and no annotation of the input
    lists it in its [child] list. *)
Theorem removed_iff_referenced data out ordered id :
  simplify_annotations_data data = Some out →
  annotations out = Some ordered →
  (∃ a, a ∈ ordered ∧ _annotation_id a = id)
  ↔ (∃ a0, a0 ∈ default [] (annotations data) ∧ _annotation_id a0 = id)
    ∧ ¬ (∃ p cs, p ∈ default [] (annotations data)
                 ∧ child_list p = Some cs ∧ id ∈ cs).
Proof.
  intros H Hout. rewrite <- elem_of_referenced_children. split.
  - intros (a & Ha & <-).
    apply (elem_of_simplified _ _ _ _ H Hout), elem_of_survivors in Ha
      as (a0 & H0 & -> & Hid).
    rewrite aggregate_one_id. eauto.
  - intros [(a0 & H0 & <-) Hid].
    exists (aggregate_one (default [] (annotations data)) a0).
    rewrite aggregate_one_id. split; [|done].
    apply (elem_of_simplified _ _ _ _ H Hout), elem_of_survivors. eauto.
Qed.

Lemma removed_iff_referenced_witness :
  (∃ a, a ∈ [with_merged_text
               (region "A" (int_box 0 0 100 50) (Some ["B"])) "b"]
        ∧ _annotation_id a = "C")
  ↔ (∃ a0, a0 ∈ default [] (annotations nested_page)
           ∧ _annotation_id a0 = "C")
    ∧ ¬ (∃ p cs, p ∈ default [] (annotations nested_page)
                 ∧ child_list p = Some cs ∧ "C" ∈ cs).
Proof.
  apply (removed_iff_referenced nested_page
           (page_of [with_merged_text
                       (region "A" (int_box 0 0 100 50) (Some ["B"])) "b"])).
  - vm_compute. reflexivity.
  - reflexivity.
Defined.

(** ** The reconstructor permutes *)

(** C10. The reconstructor returns whenever every box normalises and the
    threshold is defined, and what it returns is a permutation of the
    annotations it was given: none is created, duplicated or dropped. *)
Theorem order_parents_permutation parents page_bbox :
  (is_Some (order_parents parents page_bbox)
   ↔ Forall (λ a, is_Some (make_item page_bbox a)) parents
     ∧ is_Some (column_threshold page_bbox))
  ∧ (∀ ordered,
       order_parents parents page_bbox = Some ordered → parents ≡ₚ ordered).
Proof.
  split; [apply order_parents_Some|apply order_parents_perm].
Qed.

Lemma order_parents_permutation_witness :
  column_regions
  ≡ₚ [region "a" (int_box 50 500 150 550) None;
      region "c" (int_box 870 0 970 50) None;
      region "b" (int_box 850 100 950 150) None].
Proof.
  apply (proj2 (order_parents_permutation column_regions
                  (get_page_bbox column_page))).
  vm_compute. reflexivity.
Defined.

(** ** The annotation index *)




Lemma annotation_map_snoc anns a :
  annotation_map (anns ++ [a])
  = <[_annotation_id a := length anns]> (annotation_map anns).
Proof.
  unfold annotation_map. rewrite imap_app, foldl_app. simpl.
  by rewrite Nat.add_0_r.
Qed.

Lemma annotation_map_lookup anns c j :
  annotation_map anns !! c = Some j
  ↔ ∃ a, anns !! j = Some a ∧ _annotation_id a = c
         ∧ ∀ k b, (j < k)%nat → anns !! k = Some b → _annotation_id b ≠ c.
Proof.
  revert j. induction anns as [|a anns IH] using rev_ind; intros j.
  - split; [done|]. by intros (a & Ha & _).
  - rewrite annotation_map_snoc.
    destruct (decide (_annotation_id a = c)) as [Heq|Hne].
    + rewrite Heq, lookup_insert_eq. split.
      * intros [= <-]. exists a. split; [|split; [done|]].
        -- by rewrite lookup_app_r, Nat.sub_diag.
        -- intros k b Hk Hb. apply lookup_lt_Some in Hb.
           rewrite length_app in Hb. simpl in Hb. lia.
      * intros (b & Hb & _ & Hlast). f_equal.
        pose proof (lookup_lt_Some _ _ _ Hb) as Hj.
        rewrite length_app in Hj. simpl in Hj.
        destruct (decide (j = length anns)) as [->|Hn]; [done|].
        destruct (Hlast (length anns) a); [lia| |done].
        by rewrite lookup_app_r, Nat.sub_diag.
    + rewrite lookup_insert_ne, IH by done. split.
      * intros (b & Hb & Hid & Hlast). exists b.
        split; [by apply lookup_app_l_Some|]. split; [done|].
        intros k b' Hk Hb'.
        destruct (decide (k < length anns)%nat) as [Hlt|Hge].
        -- rewrite lookup_app_l in Hb' by done. by eapply Hlast.
        -- rewrite lookup_app_r in Hb' by lia.
           destruct (k - length anns)%nat; by simplify_eq/=.
      * intros (b & Hb & Hid & Hlast).
        destruct (decide (j < length anns)%nat) as [Hlt|Hge].
        -- rewrite lookup_app_l in Hb by done. exists b.
           split; [done|]. split; [done|]. intros k b' Hk Hb'.
           apply (Hlast k b' Hk). by apply lookup_app_l_Some.
        -- rewrite lookup_app_r in Hb by lia.
           destruct (j - length anns)%nat; by simplify_eq/=.
Qed.

(** ** Merged text *)

Lemma le_reading_order_total a b :
  le_reading_order a b = true ∨ le_reading_order b a = true.
Proof. unfold le_reading_order. lia. Qed.

Lemma le_reading_order_trans a b c :
  le_reading_order a b = true → le_reading_order b c = true →
  le_reading_order a c = true.
Proof. unfold le_reading_order. lia. Qed.

Lemma sorted_by_rank word_data :
  StronglySorted (λ a b, w_reading_order a ≤ w_reading_order b)
    (stable_sort le_reading_order word_data).
Proof.
  pose proof (stable_sort_sorted le_reading_order le_reading_order_total
                le_reading_order_trans word_data) as H.
  induction H as [|a l _ IH Ha]; constructor; [done|].
  eapply Forall_impl; [exact Ha|].
  intros b. unfold le_reading_order. lia.
Qed.

Lemma strongly_sorted_lookup {A} (R : relation A) l i j a b :
  StronglySorted R l → l !! i = Some a → l !! j = Some b → (i < j)%nat →
  R a b.
Proof.
  intros Hl. revert i j. induction Hl as [|x l Hl IH Hx]; intros i j Hi Hj Hij.
  - done.
  - destruct j as [|j]; [lia|]. destruct i as [|i]; simpl in *.
    + simplify_eq. rewrite Forall_forall in Hx. apply Hx.
      by eapply list_elem_of_lookup_2.
    + apply (IH i j); [done|done|lia].
Qed.

Lemma aggregate_all_lookup anns i p :
  anns !! i = Some p →
  (aggregate_all anns).1 !! i = Some (aggregate_one anns p).
Proof.
  intros H. rewrite aggregate_all_spec. simpl.
  by rewrite list_lookup_fmap, H.
Qed.

Lemma aggregate_one_merged anns p cs :
  child_list p = Some cs →
  collect_word_data anns (annotation_map anns) cs ≠ [] →
  aggregate_one anns p
  = with_merged_text p
      (merged_text (collect_word_data anns (annotation_map anns) cs)).
Proof.
  intros Hcs Hwd. unfold aggregate_one. rewrite Hcs.
  by destruct (collect_word_data _ _ _).
Qed.

Lemma aggregate_one_untouched anns p :
  (∀ cs, child_list p = Some cs →
         collect_word_data anns (annotation_map anns) cs = []) →
  aggregate_one anns p = p.
Proof.
  intros H. unfold aggregate_one. destruct (child_list p) as [cs|]; [|done].
  by rewrite (H cs eq_refl).
Qed.

(** C1. When the word children of a parent yield at least one non-empty
    text, the loop leaves the parent with [text] set to the texts joined by
    a single space in the order of a sort that is a permutation of the
    extracted entries, ascending by rank; ranks 3, 1, 2 with texts c, a, b
    give ["a b c"], also through the whole transformation. *)
Theorem merged_text_by_rank :
  (∀ anns i p cs,
     anns !! i = Some p →
     child_list p = Some cs →
     collect_word_data anns (annotation_map anns) cs ≠ [] →
     let word_data := collect_word_data anns (annotation_map anns) cs in
     let sorted := stable_sort le_reading_order word_data in
     (∃ p', (aggregate_all anns).1 !! i = Some p'
            ∧ text p' = Some (String.concat " " (w_text <$> sorted)))
     ∧ sorted ≡ₚ word_data
     ∧ StronglySorted (λ a b, w_reading_order a ≤ w_reading_order b) sorted)
  ∧ merged_text [ {| w_text := "c"; w_reading_order := 3 |};
                  {| w_text := "a"; w_reading_order := 1 |};
                  {| w_text := "b"; w_reading_order := 2 |} ] = "a b c"
  ∧ simplify_annotations_data abc_page = Some (page_of [abc_merged])
  ∧ text abc_merged = Some "a b c".
Proof.
  split; [|by vm_compute].
  intros anns i p cs Hp Hcs Hwd word_data sorted. repeat split.
  - exists (aggregate_one anns p). split; [by apply aggregate_all_lookup|].
    by rewrite (aggregate_one_merged _ _ _ Hcs Hwd).
  - apply stable_sort_perm.
  - apply sorted_by_rank.
Qed.

Lemma merged_text_by_rank_witness :
  let anns := default [] (annotations abc_page) in
  let word_data :=
    collect_word_data anns (annotation_map anns) ["w1"; "w2"; "w3"] in
  let sorted := stable_sort le_reading_order word_data in
  (∃ p', (aggregate_all anns).1 !! 0%nat = Some p'
         ∧ text p' = Some (String.concat " " (w_text <$> sorted)))
  ∧ sorted ≡ₚ word_data
  ∧ StronglySorted (λ a b, w_reading_order a ≤ w_reading_order b) sorted.
Proof.
  apply (proj1 merged_text_by_rank (default [] (annotations abc_page)) 0%nat
           abc_parent ["w1"; "w2"; "w3"]).
  - reflexivity.
  - vm_compute. reflexivity.
  - vm_compute. discriminate.
Defined.

(** ** When a parent is modified *)

Lemma child_list_with_merged_text p t : child_list (with_merged_text p t) = None.
Proof.
  unfold child_list, with_merged_text. simpl.
  destruct (decide (delete "child" (default ∅ (relationships p)) = ∅)) as [E|E];
    simpl; [apply lookup_empty|apply lookup_delete_eq].
Qed.

Lemma word_entry_is_Some anns c :
  is_Some (word_entry anns (annotation_map anns) c) ↔ yields_text anns c.
Proof.
  unfold word_entry, yields_text. split.
  - intros [e He].
    destruct (annotation_map anns !! c) as [j|] eqn:Ej; simplify_eq/=.
    destruct (anns !! j) as [child|] eqn:Echild; simplify_eq/=.
    destruct (decide (category_name child = Some "word")); [|done].
    destruct (decide (extract_word_text child = "")); [done|].
    apply annotation_map_lookup in Ej as (a & Ha & Hid & Hlast).
    simplify_eq. by exists j, a.
  - intros (j & child & Hchild & Hid & Hlast & Hcat & Htext).
    assert (annotation_map anns !! c = Some j) as ->
      by (apply annotation_map_lookup; eauto).
    simpl. rewrite Hchild. simpl.
    rewrite decide_True by done. rewrite decide_False by done. by eexists.
Qed.

Lemma omap_nonempty {A B} (f : A → option B) l :
  omap f l ≠ [] ↔ ∃ x, x ∈ l ∧ is_Some (f x).
Proof.
  split.
  - intros H. destruct (omap f l) as [|y ys] eqn:E; [done|].
    assert (y ∈ omap f l) as Hy by (rewrite E; left).
    apply list_elem_of_omap in Hy as (x & Hx & Hfx). exists x. eauto.
  - intros (x & Hx & [y Hy]) E.
    assert (y ∈ omap f l) as Hin by (apply list_elem_of_omap; eauto).
    rewrite E in Hin. by apply elem_of_nil in Hin.
Qed.

Lemma collect_word_data_yields anns cs :
  collect_word_data anns (annotation_map anns) cs ≠ []
  ↔ ∃ c, c ∈ cs ∧ yields_text anns c.
Proof.
  unfold collect_word_data. rewrite omap_nonempty.
  by setoid_rewrite word_entry_is_Some.
Qed.

(** C3. For a parent with a child list the loop changes the parent exactly
    when some identifier of the list names a kept word that yields text
    (the last annotation bearing it is a word with a non-empty text): then
    [text] is the merged text, the [child] key is gone, [relationships] is
    dropped when nothing else was in it and kept without [child] otherwise,
    and the other fields stay; when no identifier of the list does, the
    parent is left as it was, its [text] and its child list included.  The
    parent of [abc_page] is modified and loses [relationships]; a parent
    whose children are a region and an unknown identifier is left alone; a
    parent with a second relationship keeps that one. *)
Theorem aggregation_modifies_iff :
  (∀ anns i p cs,
     anns !! i = Some p →
     child_list p = Some cs →
     ∃ p', (aggregate_all anns).1 !! i = Some p'
       ∧ (p' ≠ p ↔ ∃ c, c ∈ cs ∧ yields_text anns c)
       ∧ ((∃ c, c ∈ cs ∧ yields_text anns c) →
            text p'
            = Some (merged_text
                      (collect_word_data anns (annotation_map anns) cs))
            ∧ child_list p' = None
            ∧ relationships p'
              = (let rest := delete "child" (default ∅ (relationships p)) in
                 if decide (rest = ∅) then None else Some rest)
            ∧ _annotation_id p' = _annotation_id p
            ∧ category_name p' = category_name p
            ∧ bounding_box p' = bounding_box p
            ∧ sub_categories p' = sub_categories p
            ∧ ann_value p' = ann_value p)
       ∧ (¬ (∃ c, c ∈ cs ∧ yields_text anns c) →
            p' = p ∧ text p' = text p ∧ child_list p' = Some cs))
  ∧ yields_text (default [] (annotations abc_page)) "w1"
  ∧ (aggregate_all (default [] (annotations abc_page))).1 !! 0%nat
    = Some abc_merged
  ∧ abc_merged ≠ abc_parent
  ∧ text abc_merged = Some "a b c"
  ∧ relationships abc_merged = None
  ∧ (aggregate_all silent_anns).1 !! 0%nat = Some silent_parent
  ∧ child_list silent_parent = Some ["x"; "nobody"]
  ∧ (∃ p', (aggregate_all linked_anns).1 !! 0%nat = Some p'
           ∧ text p' = Some "a"
           ∧ relationships p' = Some {[ "sibling" := ["s"] ]}).
Proof.
  split.
  - intros anns i p cs Hp Hcs.
    exists (aggregate_one anns p). split; [by apply aggregate_all_lookup|].
    rewrite <- collect_word_data_yields.
    destruct (decide (collect_word_data anns (annotation_map anns) cs = []))
      as [E|E].
    + assert (aggregate_one anns p = p) as ->.
      { apply aggregate_one_untouched. intros cs' Hcs'. by simplify_eq. }
      repeat split; done.
    + rewrite (aggregate_one_merged _ _ _ Hcs E). repeat split; try done.
      * intros _ Heq. apply (f_equal child_list) in Heq.
        rewrite child_list_with_merged_text, Hcs in Heq. discriminate.
      * apply child_list_with_merged_text.
  - split.
    { exists 1%nat, (word "w1" "c" (Some 3) None).
      repeat split; try done.
      intros k b Hk Hb. simpl in Hb.
      destruct k as [|[|[|[|k]]]]; simplify_eq/=; try lia; done. }
    repeat split; try by vm_compute.
    eexists. split; [vm_compute; reflexivity|]. split; by vm_compute.
Qed.

Lemma aggregation_modifies_iff_witness :
  (∃ c, c ∈ ["w1"; "w2"; "w3"]
        ∧ yields_text (default [] (annotations abc_page)) c)
  ∧ ∃ p', (aggregate_all (default [] (annotations abc_page))).1 !! 0%nat
          = Some p'
      ∧ (p' ≠ abc_parent
         ↔ ∃ c, c ∈ ["w1"; "w2"; "w3"]
                ∧ yields_text (default [] (annotations abc_page)) c).
Proof.
  split.
  - exists "w1". split; [left|]. apply (proj1 (proj2 aggregation_modifies_iff)).
  - destruct (proj1 aggregation_modifies_iff
                (default [] (annotations abc_page)) 0%nat
                abc_parent ["w1"; "w2"; "w3"]) as (p' & Hp' & Hiff & _).
    + reflexivity.
    + vm_compute. reflexivity.
    + by exists p'.
Defined.

(** ** Unranked words *)

(** C7. The sentinel does not put every unranked word at the end, as the
    docstring of [extract_reading_order] says it should: a word without a
    reading order gets the rank 999999 and so precedes a word of rank
    1000000 in the merged text, here "x y". *)
Lemma unranked_before_higher_rank :
  sub_categories (word "u" "x" None None)
    = Some [("characters", SubCatDict (Some "x") None)]
  ∧ extract_reading_order (word "u" "x" None None) = 999999
  ∧ extract_reading_order (word "r" "y" (Some 1000000) None) = 1000000
  ∧ simplify_annotations_data high_rank_page
    = Some (page_of [with_merged_text
                       (region "P" (int_box 0 0 100 50) (Some ["u"; "r"]))
                       "x y"]).
Proof. by vm_compute. Qed.

(** ** Bounding-box normaliser *)

Lemma Z_of_float_truncates f : Z_of_float f = Qtruncate <$> float_value f.
Proof.
  unfold Z_of_float, float_value, SFvalue, Qtruncate.
  destruct (Prim2SF f) as [s|s| |s m e]; try done.
  simpl. f_equal. destruct (0 <=? e) eqn:He; simpl.
  - rewrite Z.quot_1_r. destruct s; [|done].
    change (Z.neg m) with (- Z.pos m). lia.
  - apply Z.leb_gt in He.
    rewrite Pos2Z.inj_pow, Z2Pos.id by lia.
    assert (0 < 2 ^ (- e)) as Hpos by (apply Z.pow_pos_nonneg; lia).
    destruct s.
    + change (Z.neg m) with (- Z.pos m).
      rewrite Z.quot_opp_l by lia. f_equal.
      symmetry. apply Z.quot_div_nonneg; lia.
    + symmetry. apply Z.quot_div_nonneg; lia.
Qed.

Lemma py_int_spec x : py_int x = spec_int x.
Proof. destruct x; [done|]. apply Z_of_float_truncates. Qed.

Lemma page_extent_spec lo hi : page_extent lo hi = spec_extent lo hi.
Proof.
  unfold page_extent, spec_extent. destruct (py_sub hi lo) as [d|]; [|done].
  simpl. rewrite py_int_spec. by destruct (spec_int d).
Qed.

Lemma coord_scaled_spec c extent :
  coord_scaled c extent = spec_fraction (default (PyInt 0) c) extent.
Proof.
  unfold coord_scaled, spec_fraction, scale.
  destruct (py_float _) as [f|]; [|done]. simpl.
  destruct (float_of_Z extent) as [e|]; [|done]. simpl.
  apply Z_of_float_truncates.
Qed.

Lemma to_absolute_bbox_spec bbox page_bbox :
  to_absolute_bbox bbox page_bbox = spec_to_absolute bbox page_bbox.
Proof.
  unfold to_absolute_bbox, spec_to_absolute, page_width, page_height,
    coord_as_is.
  rewrite !page_extent_spec.
  destruct (spec_extent (page_ulx _) _) as [pw|]; [|done].
  destruct (spec_extent (page_uly _) _) as [ph|]; [|done]. simpl.
  destruct (absolute_coords bbox) as [[|]|]; simpl;
    repeat (rewrite ?py_int_spec, ?coord_scaled_spec;
            match goal with
            | |- context [spec_int ?x ≫= _] => destruct (spec_int x)
            | |- context [spec_fraction ?x ?e ≫= _] =>
                destruct (spec_fraction x e)
            end; simpl; [|done]);
    done.
Qed.

(** C4. The normaliser is the normaliser of the specification: with the
    flag true or absent each coordinate, 0 when it is missing, is cast to
    an integer, so integer coordinates come back unchanged and a float is
    truncated towards zero; with the flag false each x-coordinate is the
    product of the fraction and the page width and each y-coordinate the
    product of the fraction and the page height, truncated towards zero,
    the width and the height being [max(1, lrx - ulx)] and
    [max(1, lry - uly)] of the page.  The box (0.5, 0.0, 1.0, 0.5) on the
    page (0, 0, 1000, 1000) becomes (500, 0, 1000, 500); on a page 810 wide
    and 1201 high the fractions 0.3125, 0.75 and -0.3125 give 253, 900 and
    -253. *)
Theorem to_absolute_bbox_cases :
  (∀ bbox page_bbox,
     to_absolute_bbox bbox page_bbox = spec_to_absolute bbox page_bbox)
  ∧ (∀ f, Z_of_float f = Qtruncate <$> float_value f)
  ∧ (∀ px1 py1 px2 py2 x1 y1 x2 y2,
       to_absolute_bbox
         {| ulx := x1; uly := y1; lrx := x2; lry := y2;
            absolute_coords := Some false |}
         {| page_ulx := PyInt px1; page_uly := PyInt py1;
            page_lrx := PyInt px2; page_lry := PyInt py2 |}
       = (a ← spec_fraction (default (PyInt 0) x1) (Z.max 1 (px2 - px1));
          b ← spec_fraction (default (PyInt 0) y1) (Z.max 1 (py2 - py1));
          c ← spec_fraction (default (PyInt 0) x2) (Z.max 1 (px2 - px1));
          d ← spec_fraction (default (PyInt 0) y2) (Z.max 1 (py2 - py1));
          Some {| abs_ulx := a; abs_uly := b; abs_lrx := c; abs_lry := d |}))
  ∧ (∀ px1 py1 px2 py2 x1 y1 x2 y2 flag,
       to_absolute_bbox
         {| ulx := Some (PyInt x1); uly := Some (PyInt y1);
            lrx := Some (PyInt x2); lry := Some (PyInt y2);
            absolute_coords := flag |}
         {| page_ulx := PyInt px1; page_uly := PyInt py1;
            page_lrx := PyInt px2; page_lry := PyInt py2 |}
       = match flag with
         | Some false =>
             to_absolute_bbox
               {| ulx := Some (PyInt x1); uly := Some (PyInt y1);
                  lrx := Some (PyInt x2); lry := Some (PyInt y2);
                  absolute_coords := Some false |}
               {| page_ulx := PyInt px1; page_uly := PyInt py1;
                  page_lrx := PyInt px2; page_lry := PyInt py2 |}
         | _ =>
             Some {| abs_ulx := x1; abs_uly := y1;
                     abs_lrx := x2; abs_lry := y2 |}
         end)
  ∧ to_absolute_bbox half_box default_page_box
    = Some {| abs_ulx := 500; abs_uly := 0; abs_lrx := 1000; abs_lry := 500 |}
  ∧ to_absolute_bbox fraction_box tall_page_box
    = Some {| abs_ulx := 253; abs_uly := 900;
              abs_lrx := -253; abs_lry := 1201 |}
  ∧ to_absolute_bbox float_box tall_page_box
    = Some {| abs_ulx := 12; abs_uly := -3; abs_lrx := 0; abs_lry := 7 |}
  ∧ Qred <$> float_value (0.3125 * 810) = Some (2025 # 8)%Q
  ∧ Qtruncate (2025 # 8) = 253
  ∧ Qtruncate (- (2025 # 8)) = -253.
Proof.
  split; [apply to_absolute_bbox_spec|].
  split; [apply Z_of_float_truncates|].
  split.
  { intros. rewrite to_absolute_bbox_spec. unfold spec_to_absolute. simpl.
    done. }
  split.
  { intros. destruct flag as [[|]|]; try done. }
  repeat split; by vm_compute.
Qed.

(** ** Column threshold *)

Lemma scale_agrees_sound n w0 :
  scale_agrees n w0 = true →
  ∀ w, w0 ≤ w < w0 + Z.of_nat n → scale ratio w = Some (8 * w / 100).
Proof.
  revert w0. induction n as [|n IH]; intros w0 H w Hw; [lia|].
  simpl in H. apply andb_true_iff in H as [H1 H2].
  destruct (decide (w = w0)) as [->|Hne].
  - destruct (scale ratio w0) as [t|]; [|done].
    apply Z.eqb_eq in H1. by subst.
  - apply (IH (w0 + 1)); [done|lia].
Qed.

Lemma scale_ratio_floor w :
  1 ≤ w ≤ 100000 → scale ratio w = Some (8 * w / 100).
Proof.
  intros Hw. apply (scale_agrees_sound (Z.to_nat 100000) 1); [|lia].
  vm_compute. reflexivity.
Qed.

Lemma page_extent_pos lo hi w : page_extent lo hi = Some w → 1 ≤ w.
Proof.
  unfold page_extent. intros H.
  destruct (py_sub hi lo) as [d|]; simplify_eq/=.
  destruct (py_int d) as [n|]; simplify_eq/=. lia.
Qed.

(** C6, as stated, fails on a page 1010 units wide: the threshold is 80,
    not 80.8. *)
Lemma threshold_not_exact :
  page_width wide_box = Some 1010
  ∧ column_threshold wide_box = Some 80
  ∧ ¬ (inject_Z 80 == Qmax ((8 # 100) * inject_Z 1010) (inject_Z 60))%Q.
Proof.
  split; [by vm_compute|]. split; [by vm_compute|].
  intros H. vm_compute in H. discriminate.
Qed.

(** C6, amended.  The threshold is [max(int(0.08 * page_w), 60)] with
    [page_w = max(1, int(lrx - ulx))], both [int] truncating; for page
    widths up to 100000 that is the maximum of 60 and the integer quotient
    of [8 * page_w] by 100. *)
Theorem column_threshold_truncated :
  (∀ page_bbox t,
     column_threshold page_bbox = Some t →
     ∃ page_w p,
       page_width page_bbox = Some page_w
       ∧ scale ratio page_w = Some p
       ∧ t = Z.max p 60)
  ∧ (∀ page_bbox page_w,
       page_width page_bbox = Some page_w →
       page_w ≤ 100000 →
       column_threshold page_bbox = Some (Z.max (8 * page_w / 100) 60))
  ∧ (∀ x1 x2, page_extent (PyInt x1) (PyInt x2) = Some (Z.max 1 (x2 - x1))).
Proof.
  repeat split.
  - unfold column_threshold. intros page_bbox t H.
    destruct (page_width page_bbox) as [pw|]; simplify_eq/=.
    destruct (scale ratio pw) as [p|] eqn:E; simplify_eq/=. by exists pw, p.
  - unfold column_threshold. intros page_bbox pw Hpw Hle. rewrite Hpw. simpl.
    rewrite scale_ratio_floor; [done|].
    apply page_extent_pos in Hpw. lia.
Qed.

Lemma column_threshold_truncated_witness :
  column_threshold wide_box = Some (Z.max (8 * 1010 / 100) 60).
Proof.
  apply (proj1 (proj2 column_threshold_truncated) wide_box 1010).
  - vm_compute. reflexivity.
  - lia.
Defined.
(** ** The reconstruction of the specification *)















(** ** The order of binary64 values *)

Ltac compare_cases :=
  repeat match goal with
    | H : context [Z.compare ?a ?b] |- _ =>
        destruct (Z.compare_spec a b); simpl in H
    | H : context [Pos.compare_cont Eq ?a ?b] |- _ =>
        change (Pos.compare_cont Eq a b) with (Pos.compare a b) in H;
        destruct (Pos.compare_spec a b); simpl in H
    | |- context [Z.compare ?a ?b] =>
        destruct (Z.compare_spec a b); simpl
    | |- context [Pos.compare_cont Eq ?a ?b] =>
        change (Pos.compare_cont Eq a b) with (Pos.compare a b);
        destruct (Pos.compare_spec a b); simpl
    end.

Lemma SFltb_asym x y :
  SFltb x y = true → SFltb y x = false.
Proof.
  unfold SFltb.
  destruct x as [[]|[]| |[] mx ex], y as [[]|[]| |[] my ey]; simpl;
    try done; intros H; compare_cases; try done; try lia.
Qed.

Lemma SFltb_trans x y z :
  SFltb x y = true → SFltb y z = true →
  SFltb x z = true.
Proof.
  unfold SFltb.
  destruct x as [[]|[]| |[] mx ex], y as [[]|[]| |[] my ey],
    z as [[]|[]| |[] mz ez]; simpl; try done;
    intros H1 H2; compare_cases; try done; try lia.
Qed.

Lemma ltb_asym (x y : float) : (x <? y)%float = true → (y <? x)%float = false.
Proof. rewrite !ltb_spec. apply SFltb_asym. Qed.

Lemma ltb_trans (x y z : float) :
  (x <? y)%float = true → (y <? z)%float = true → (x <? z)%float = true.
Proof. rewrite !ltb_spec. apply SFltb_trans. Qed.

(** ** Sorting items of distinct centres *)

Definition lt_cx (a b : Item) : Prop := (it_cx a <? it_cx b)%float = true.

Lemma apart_cases a b : apart a b → lt_cx a b ∨ lt_cx b a.
Proof. unfold apart, lt_cx. intros H. by apply orb_true_iff in H. Qed.

Lemma apart_sym a b : apart a b → apart b a.
Proof. unfold apart. by rewrite orb_comm. Qed.

Lemma le_cx_lt a b : apart a b → le_cx a b = true ↔ lt_cx a b.
Proof.
  intros H. unfold le_cx, float_le, lt_cx. split.
  - intros Hle. apply negb_true_iff in Hle.
    destruct (apart_cases _ _ H) as [Hab|Hba]; [done|].
    unfold lt_cx in Hba. congruence.
  - intros Hab. apply negb_true_iff. by apply ltb_asym.
Qed.

Lemma pairwise_perm {A} (R : A → A → Prop) l l' :
  (∀ x y, R x y → R y x) → l ≡ₚ l' → pairwise R l → pairwise R l'.
Proof.
  intros Hsym Hp. induction Hp as [|x l l' Hp IH|x y l|l l' l'' _ IH1 _ IH2];
    simpl.
  - done.
  - intros [Hx Hl]. split; [by rewrite <- Hp|by apply IH].
  - intros [Hy [Hx Hl]]. apply Forall_cons_1 in Hy as [Hyx Hy].
    repeat split; try done. constructor; [by apply Hsym|done].
  - intros H. by apply IH2, IH1.
Qed.

Lemma insert_sorted_lt x s :
  Forall (apart x) s →
  StronglySorted lt_cx s → StronglySorted lt_cx (insert_sorted le_cx x s).
Proof.
  intros Hx Hs. induction Hs as [|y s Hs IH Hy]; simpl.
  - repeat constructor.
  - apply Forall_cons_1 in Hx as [Hxy Hx].
    destruct (le_cx x y) eqn:E.
    + apply (le_cx_lt _ _ Hxy) in E.
      constructor; [by constructor|]. constructor; [done|].
      eapply Forall_impl; [exact Hy|]. intros z Hz.
      unfold lt_cx in *. by eapply ltb_trans.
    + constructor; [by apply IH|].
      rewrite insert_sorted_perm. constructor; [|done].
      destruct (apart_cases _ _ Hxy) as [Hlt|Hlt]; [|done].
      apply (le_cx_lt _ _ Hxy) in Hlt. congruence.
Qed.

Lemma stable_sort_lt items :
  distinct_centres items → StronglySorted lt_cx (stable_sort le_cx items).
Proof.
  unfold distinct_centres.
  induction items as [|x items IH]; simpl; [constructor|].
  intros [Hx Hd]. apply insert_sorted_lt; [|by apply IH].
  by rewrite stable_sort_perm.
Qed.

(** The sort by centre of items of distinct centres does not depend on
    their order. *)
Lemma sorted_le_cx_unique items items' :
  distinct_centres items → items ≡ₚ items' →
  stable_sort le_cx items = stable_sort le_cx items'.
Proof.
  intros Hd Hp.
  apply (StronglySorted_unique_strong lt_cx).
  - intros x y _ _ Hxy Hyx. unfold lt_cx in *.
    apply ltb_asym in Hxy. congruence.
  - by apply stable_sort_lt.
  - apply stable_sort_lt.
    eapply (pairwise_perm apart); [apply apart_sym|exact Hp|done].
  - by rewrite !stable_sort_perm.
Qed.

Lemma mapM_Permutation {A B} (f : A → option B) l l' k :
  l ≡ₚ l' → mapM f l = Some k →
  ∃ k', mapM f l' = Some k' ∧ k ≡ₚ k'.
Proof.
  intros Hp H. apply mapM_Some_1 in H.
  destruct (Permutation_Forall2 Hp H) as (k' & Hk & HF).
  exists k'. split; [by apply mapM_Some_2|done].
Qed.

Lemma order_parents_rearranged parents parents' page_bbox items ordered :
  parents ≡ₚ parents' →
  mapM (make_item page_bbox) parents = Some items →
  distinct_centres items →
  order_parents parents page_bbox = Some ordered →
  order_parents parents' page_bbox = Some ordered.
Proof.
  intros Hp Hitems Hnd. unfold order_parents. rewrite Hitems.
  destruct (mapM_Permutation _ _ _ _ Hp Hitems) as (items' & -> & Hp').
  simpl. destruct (column_threshold page_bbox) as [t|]; simpl; [|done].
  by rewrite (sorted_le_cx_unique items items').
Qed.

(** ** Simplifying twice *)



Lemma filter_all {A} (P : A → Prop) `{!∀ x, Decision (P x)} l :
  Forall P l → filter P l = l.
Proof.
  induction 1 as [|x l Hx _ IH]; [done|].
  by rewrite filter_cons_True, IH.
Qed.


Lemma column_threshold_nonneg page_bbox t :
  column_threshold page_bbox = Some t → 0 ≤ t.
Proof.
  unfold column_threshold. intros H.
  destruct (page_width page_bbox) as [pw|]; simplify_eq/=.
  destruct (scale ratio pw) as [p|]; simplify_eq/=. lia.
Qed.





(** * Further properties *)

(** ** The index keeps the last bearer of an identifier *)

(** X1. The index maps an identifier to the position of the last annotation
    of the page that bears it: a repeated identifier silently overwrites
    the earlier entries. *)
Theorem annotation_map_last_wins anns c j :
  annotation_map anns !! c = Some j
  ↔ ∃ a, anns !! j = Some a ∧ _annotation_id a = c
         ∧ ∀ k b, (j < k)%nat → anns !! k = Some b → _annotation_id b ≠ c.
Proof. apply annotation_map_lookup. Qed.

Lemma annotation_map_last_wins_witness :
  ∃ a, [region "d" empty_bbox None; region "d" (int_box 0 0 1 1) None] !! 1%nat
       = Some a
       ∧ _annotation_id a = "d"
       ∧ ∀ k b, (1 < k)%nat →
           [region "d" empty_bbox None; region "d" (int_box 0 0 1 1) None] !! k
           = Some b →
           _annotation_id b ≠ "d".
Proof.
  apply (proj1 (annotation_map_last_wins
                  [region "d" empty_bbox None;
                   region "d" (int_box 0 0 1 1) None] "d" 1%nat)).
  vm_compute. reflexivity.
Defined.

(** ** The loop works on the page as it was on entry *)

(** X2. Although the loop updates parents in the store it reads children
    from, it leaves the store with, at every position, the annotation of
    that position aggregated against the page as it was on entry, and it
    collects exactly the identifiers listed in some child list. *)
Theorem aggregation_pointwise anns :
  length (aggregate_all anns).1 = length anns
  ∧ (∀ i p, anns !! i = Some p →
            (aggregate_all anns).1 !! i = Some (aggregate_one anns p))
  ∧ (∀ c, c ∈ (aggregate_all anns).2
          ↔ ∃ p cs, p ∈ anns ∧ child_list p = Some cs ∧ c ∈ cs).
Proof.
  rewrite aggregate_all_spec. simpl. split; [by rewrite length_fmap|]. split.
  - intros i p Hp. by rewrite list_lookup_fmap, Hp.
  - apply elem_of_referenced_children.
Qed.

(** X18. An entry is extracted for a child identifier exactly when the
    last annotation of the page bearing that identifier is a word with a
    non-empty text; the entry holds that text and that word's rank.
    Identifiers borne by no annotation, annotations of another category
    and words without text contribute nothing. *)
Theorem word_data_members anns cs e :
  e ∈ collect_word_data anns (annotation_map anns) cs
  ↔ ∃ c j child,
      c ∈ cs
      ∧ anns !! j = Some child
      ∧ _annotation_id child = c
      ∧ (∀ k b, (j < k)%nat → anns !! k = Some b → _annotation_id b ≠ c)
      ∧ category_name child = Some "word"
      ∧ extract_word_text child ≠ ""
      ∧ e = {| w_text := extract_word_text child;
               w_reading_order := extract_reading_order child |}.
Proof.
  unfold collect_word_data. rewrite list_elem_of_omap. split.
  - intros (c & Hc & He). unfold word_entry in He.
    destruct (annotation_map anns !! c) as [j|] eqn:Ej; simplify_eq/=.
    destruct (anns !! j) as [child|] eqn:Echild; simplify_eq/=.
    destruct (decide (category_name child = Some "word")); [|done].
    destruct (decide (extract_word_text child = "")); simplify_eq/=.
    apply annotation_map_lookup in Ej as (a & Ha & Hid & Hlast).
    simplify_eq. by exists (_annotation_id a), j, a.
  - intros (c & j & child & Hc & Hchild & Hid & Hlast & Hcat & Htext & ->).
    exists c. split; [done|]. unfold word_entry.
    assert (annotation_map anns !! c = Some j) as ->
      by (apply annotation_map_lookup; eauto).
    simpl. rewrite Hchild. simpl.
    rewrite decide_True by done. by rewrite decide_False by done.
Qed.

(** ** What the transformation keeps *)

Lemma length_filter_aggregate_one anns (to_remove : gset string) l :
  length (filter (λ a, _annotation_id a ∉ to_remove) (aggregate_one anns <$> l))
  = length (filter (λ a, _annotation_id a ∉ to_remove) l).
Proof.
  induction l as [|a l IH]; [done|]. csimpl.
  rewrite !filter_cons, aggregate_one_id.
  destruct (decide (_annotation_id a ∉ to_remove)); simpl; by rewrite IH.
Qed.

Lemma length_survivors anns :
  length (survivors anns)
  = length (filter (λ a, _annotation_id a ∉ referenced_children anns) anns).
Proof.
  unfold survivors, remove_children.
  destruct (decide (referenced_children anns = ∅)) as [E|_].
  - rewrite length_fmap, E, filter_all; [done|].
    apply Forall_forall. intros a _. apply not_elem_of_empty.
  - apply length_filter_aggregate_one.
Qed.

(** X3. The number of annotations of the output is the number of input
    annotations whose identifier occurs in no child list; it never exceeds
    the number of input annotations. *)
Theorem annotation_count_after data out :
  simplify_annotations_data data = Some out →
  annotation_count out
  = length (filter (λ a, _annotation_id a
                         ∉ referenced_children (default [] (annotations data)))
              (default [] (annotations data)))
  ∧ (annotation_count out ≤ annotation_count data)%nat.
Proof.
  intros H.
  destruct (simplify_annotations_data_Some _ _ H) as (ordered & -> & Hord).
  unfold annotation_count. simpl.
  rewrite <- (Permutation_length (order_parents_perm _ _ _ Hord)).
  rewrite length_survivors. split; [done|]. apply length_filter.
Qed.

Lemma annotation_count_after_witness :
  annotation_count (page_of [abc_merged])
  = length (filter (λ a, _annotation_id a
                         ∉ referenced_children
                             (default [] (annotations abc_page)))
              (default [] (annotations abc_page)))
  ∧ (annotation_count (page_of [abc_merged]) ≤ annotation_count abc_page)%nat.
Proof.
  apply (annotation_count_after abc_page). vm_compute. reflexivity.
Defined.

Lemma relationships_with_merged_text p t k :
  k ≠ "child" →
  default ∅ (relationships (with_merged_text p t)) !! k
  = default ∅ (relationships p) !! k.
Proof.
  intros Hk. unfold with_merged_text. simpl.
  destruct (decide (delete "child" (default ∅ (relationships p)) = ∅))
    as [E|E]; simpl.
  - rewrite lookup_empty. symmetry.
    rewrite <- (lookup_delete_ne _ "child" k) by done. by rewrite E.
  - by rewrite lookup_delete_ne.
Qed.

(** X4. Every annotation of the output is an annotation of the input with
    the same identifier, category, box, sub-categories and value, and with
    the same relationships other than [child]; an input annotation without
    a child list comes out unchanged. *)
Theorem output_annotations_preserved data out ordered a :
  simplify_annotations_data data = Some out →
  annotations out = Some ordered →
  a ∈ ordered →
  ∃ a0, a0 ∈ default [] (annotations data)
    ∧ _annotation_id a = _annotation_id a0
    ∧ category_name a = category_name a0
    ∧ bounding_box a = bounding_box a0
    ∧ sub_categories a = sub_categories a0
    ∧ ann_value a = ann_value a0
    ∧ (∀ k, k ≠ "child" →
            default ∅ (relationships a) !! k
            = default ∅ (relationships a0) !! k)
    ∧ (child_list a0 = None → a = a0).
Proof.
  intros H Hout Ha.
  apply (elem_of_simplified _ _ _ _ H Hout), elem_of_survivors in Ha
    as (a0 & H0 & -> & _).
  exists a0. split; [done|].
  unfold aggregate_one. destruct (child_list a0) as [cs|] eqn:E.
  - destruct (collect_word_data _ _ cs); repeat split; try done.
    intros k Hk. by apply relationships_with_merged_text.
  - by repeat split.
Qed.

Lemma output_annotations_preserved_witness :
  ∃ a0, a0 ∈ default [] (annotations abc_page)
    ∧ _annotation_id abc_merged = _annotation_id a0
    ∧ category_name abc_merged = category_name a0
    ∧ bounding_box abc_merged = bounding_box a0
    ∧ sub_categories abc_merged = sub_categories a0
    ∧ ann_value abc_merged = ann_value a0
    ∧ (∀ k, k ≠ "child" →
            default ∅ (relationships abc_merged) !! k
            = default ∅ (relationships a0) !! k)
    ∧ (child_list a0 = None → abc_merged = a0).
Proof.
  apply (output_annotations_preserved abc_page (page_of [abc_merged])
           [abc_merged] abc_merged).
  - vm_compute. reflexivity.
  - reflexivity.
  - solve_elem.
Defined.

(** X5. On a page with no annotations, or without the [annotations] key,
    the transformation returns the page with an empty annotation list when
    the column threshold of its box is defined, and fails otherwise: the
    page box is read even when there is nothing to order. *)
Theorem simplify_empty_page data :
  default [] (annotations data) = [] →
  simplify_annotations_data data
  = match column_threshold (get_page_bbox data) with
    | Some _ => Some {| _bbox := _bbox data; annotations := Some [] |}
    | None => None
    end.
Proof.
  intros H. unfold simplify_annotations_data. rewrite H.
  unfold order_parents. simpl.
  by destruct (column_threshold (get_page_bbox data)).
Qed.

Lemma simplify_empty_page_witness :
  simplify_annotations_data {| _bbox := None; annotations := None |}
  = match column_threshold
            (get_page_bbox {| _bbox := None; annotations := None |}) with
    | Some _ => Some {| _bbox := None; annotations := Some [] |}
    | None => None
    end.
Proof.
  apply (simplify_empty_page {| _bbox := None; annotations := None |}).
  reflexivity.
Defined.

(** ** The merged text *)

Lemma string_length_app (s1 s2 : string) :
  String.length (s1 +:+ s2) = (String.length s1 + String.length s2)%nat.
Proof. induction s1 as [|c s1 IH]; simpl; [done|]. by rewrite IH. Qed.

Lemma string_length_concat (sep : string) (l : list string) :
  String.length (String.concat sep l)
  = (list_sum (String.length <$> l)
     + String.length sep * (length l - 1))%nat.
Proof.
  induction l as [|s [|s' l] IH]; simpl in *; [done|lia|].
  rewrite !string_length_app, IH. lia.
Qed.

Lemma word_entry_nonempty store amap c e :
  word_entry store amap c = Some e → w_text e ≠ "".
Proof.
  unfold word_entry. intros H.
  destruct (amap !! c ≫= (store !!.)) as [child|]; simplify_eq/=.
  destruct (decide (category_name child = Some "word")); [|done].
  destruct (decide (extract_word_text child = "")); by simplify_eq/=.
Qed.

Lemma collect_word_data_nonempty store amap cs :
  Forall (λ e, w_text e ≠ "") (collect_word_data store amap cs).
Proof.
  apply Forall_forall. intros e He.
  apply list_elem_of_omap in He as (c & _ & Hc).
  by eapply word_entry_nonempty.
Qed.

Lemma merged_text_facts word_data :
  word_data ≠ [] →
  Forall (λ e, w_text e ≠ "") word_data →
  merged_text word_data ≠ ""
  ∧ String.length (merged_text word_data)
    = (list_sum ((λ e, String.length (w_text e)) <$> word_data)
       + (length word_data - 1))%nat.
Proof.
  intros Hwd Hne.
  assert (String.length (merged_text word_data)
          = (list_sum ((λ e, String.length (w_text e)) <$> word_data)
             + (length word_data - 1))%nat) as Hlen.
  { unfold merged_text. rewrite string_length_concat, length_fmap.
    rewrite stable_sort_length, <- list_fmap_compose. simpl.
    rewrite Nat.add_0_r. f_equal.
    apply Permutation_list_sum, fmap_Permutation, stable_sort_perm. }
  split; [|done]. intros Hempty. rewrite Hempty in Hlen. simpl in Hlen.
  destruct word_data as [|e wd]; [done|].
  apply Forall_cons_1 in Hne as [He _]. csimpl in Hlen.
  destruct (w_text e); [done|]. simpl in Hlen. lia.
Qed.

(** X6. A text assigned by the aggregator is never empty: its length is the
    sum of the lengths of the extracted word texts plus one separator
    between consecutive words, and every extracted word text is
    non-empty. *)
Theorem merged_text_length anns p cs :
  child_list p = Some cs →
  collect_word_data anns (annotation_map anns) cs ≠ [] →
  let word_data := collect_word_data anns (annotation_map anns) cs in
  Forall (λ e, w_text e ≠ "") word_data
  ∧ ∃ t, text (aggregate_one anns p) = Some t
      ∧ t ≠ ""
      ∧ String.length t
        = (list_sum ((λ e, String.length (w_text e)) <$> word_data)
           + (length word_data - 1))%nat.
Proof.
  intros Hcs Hwd. simpl.
  pose proof (collect_word_data_nonempty anns (annotation_map anns) cs) as Hne.
  split; [done|]. rewrite (aggregate_one_merged _ _ _ Hcs Hwd).
  eexists. split; [reflexivity|]. by apply merged_text_facts.
Qed.

Lemma merged_text_length_witness :
  let anns := default [] (annotations abc_page) in
  let word_data :=
    collect_word_data anns (annotation_map anns) ["w1"; "w2"; "w3"] in
  Forall (λ e, w_text e ≠ "") word_data
  ∧ ∃ t, text (aggregate_one anns abc_parent) = Some t
      ∧ t ≠ ""
      ∧ String.length t
        = (list_sum ((λ e, String.length (w_text e)) <$> word_data)
           + (length word_data - 1))%nat.
Proof.
  apply (merged_text_length (default [] (annotations abc_page)) abc_parent
           ["w1"; "w2"; "w3"]).
  - vm_compute. reflexivity.
  - vm_compute. discriminate.
Defined.

(** ** Stability *)

Section Stability.
Context {A : Type} (le : A → A → bool) (P : A → Prop) `{!∀ x, Decision (P x)}.
Hypothesis P_tied : ∀ x y, P x → P y → le x y = true.

Lemma filter_insert_sorted x l :
  filter P (insert_sorted le x l) = filter P (x :: l).
Proof.
  induction l as [|y l IH]; simpl; [done|].
  destruct (le x y) eqn:E; [done|].
  rewrite filter_cons, IH, !filter_cons.
  destruct (decide (P y)) as [Hy|Hy], (decide (P x)) as [Hx|Hx]; try done.
  rewrite (P_tied x y Hx Hy) in E. discriminate.
Qed.

(** The elements tied under the order keep their relative order. *)
Lemma filter_stable_sort l : filter P (stable_sort le l) = filter P l.
Proof.
  induction l as [|x l IH]; simpl; [done|].
  by rewrite filter_insert_sorted, !filter_cons, IH.
Qed.
End Stability.

(** X7. Words of equal rank are merged in the order of the child list: the
    sort by rank keeps, for every rank, the entries of that rank in the
    order in which they were extracted.  In particular the words without a
    reading order follow one another as the child list has them. *)
Theorem equal_ranks_keep_child_order word_data r :
  filter (λ e, w_reading_order e = r) (stable_sort le_reading_order word_data)
  = filter (λ e, w_reading_order e = r) word_data.
Proof.
  apply filter_stable_sort. intros x y Hx Hy. unfold le_reading_order. lia.
Qed.

Lemma NoDup_fmap_eq {A B} (f : A → B) l x y :
  NoDup (f <$> l) → x ∈ l → y ∈ l → f x = f y → x = y.
Proof.
  induction l as [|a l IH]; csimpl; intros Hnd Hx Hy Hf.
  - by apply elem_of_nil in Hx.
  - apply NoDup_cons in Hnd as [Ha Hnd].
    apply elem_of_cons in Hx as [->|Hx], Hy as [->|Hy]; try done.
    + destruct Ha. rewrite Hf. by apply list_elem_of_fmap_2.
    + destruct Ha. rewrite <- Hf. by apply list_elem_of_fmap_2.
    + by apply IH.
Qed.

(** X8. When the extracted words have pairwise distinct ranks, the merged
    text does not depend on the order of the child list: any two orders of
    the same entries give the same text. *)
Theorem merged_text_order_irrelevant word_data word_data' :
  NoDup (w_reading_order <$> word_data) →
  word_data ≡ₚ word_data' →
  merged_text word_data = merged_text word_data'.
Proof.
  intros Hnd Hp. unfold merged_text. do 2 f_equal.
  apply (StronglySorted_unique_strong
           (λ a b, w_reading_order a ≤ w_reading_order b)).
  - intros x y Hx Hy Hxy Hyx.
    rewrite stable_sort_perm in Hx, Hy. rewrite <- Hp in Hy.
    apply (NoDup_fmap_eq w_reading_order word_data); [done..|lia].
  - apply sorted_by_rank.
  - apply sorted_by_rank.
  - by rewrite !stable_sort_perm.
Qed.

Lemma merged_text_order_irrelevant_witness :
  merged_text [ {| w_text := "c"; w_reading_order := 3 |};
                {| w_text := "a"; w_reading_order := 1 |} ]
  = merged_text [ {| w_text := "a"; w_reading_order := 1 |};
                  {| w_text := "c"; w_reading_order := 3 |} ].
Proof.
  apply merged_text_order_irrelevant.
  - apply (bool_decide_unpack _). vm_compute. exact I.
  - apply Permutation_swap.
Defined.

(** ** Words without a reading order *)

(** X19. A word without a [reading_order] entry carrying a [category_id]
    has the rank 999999, and in the order of the merged text every entry of
    that rank comes after every entry of a rank below 999999, wherever the
    two stand in the child list. *)
Theorem unranked_after_lower_ranks :
  (∀ child,
     (∀ subs v cid, sub_categories child = Some subs →
        dict_get "reading_order" subs ≠ Some (SubCatDict v (Some cid))) →
     extract_reading_order child = sentinel)
  ∧ (∀ word_data i j u r,
       stable_sort le_reading_order word_data !! i = Some u →
       stable_sort le_reading_order word_data !! j = Some r →
       w_reading_order u = sentinel →
       w_reading_order r < sentinel →
       (j < i)%nat).
Proof.
  split.
  - intros child H. unfold extract_reading_order.
    destruct (sub_categories child) as [subs|]; [|done].
    specialize (H subs).
    destruct (dict_get "reading_order" subs) as [[v [cid|]|]|]; try done.
    by destruct (H v cid eq_refl).
  - intros word_data i j u r Hu Hr Hsu Hsr.
    destruct (decide (j < i)%nat) as [|Hji]; [done|].
    destruct (decide (i = j)) as [->|Hne]; [simplify_eq; lia|].
    pose proof (strongly_sorted_lookup _ _ i j u r (sorted_by_rank word_data)
                  Hu Hr ltac:(lia)) as Hle.
    simpl in Hle. lia.
Qed.

Lemma unranked_after_lower_ranks_witness : (0 < 1)%nat.
Proof.
  apply (proj2 unranked_after_lower_ranks
           [ {| w_text := "x"; w_reading_order := 999999 |};
             {| w_text := "y"; w_reading_order := 7 |} ]
           1%nat 0%nat
           {| w_text := "x"; w_reading_order := 999999 |}
           {| w_text := "y"; w_reading_order := 7 |}).
  - reflexivity.
  - reflexivity.
  - reflexivity.
  - vm_compute. reflexivity.
Defined.

(** ** Independence of the input order *)

(** X17. When no two annotations have the same horizontal centre, as
    binary64 values, the output does not depend on the order of the input:
    any rearrangement of the annotations is given the same reading
    order. *)
Theorem order_parents_input_order parents parents' page_bbox items ordered :
  parents ≡ₚ parents' →
  mapM (make_item page_bbox) parents = Some items →
  distinct_centres items →
  order_parents parents page_bbox = Some ordered →
  order_parents parents' page_bbox = Some ordered.
Proof. apply order_parents_rearranged. Qed.

Lemma order_parents_input_order_witness :
  order_parents
    [region "a" (int_box 50 500 150 550) None;
     region "b" (int_box 850 100 950 150) None;
     region "c" (int_box 870 0 970 50) None] default_page_box
  = Some [region "a" (int_box 50 500 150 550) None;
          region "c" (int_box 870 0 970 50) None;
          region "b" (int_box 850 100 950 150) None].
Proof.
  apply (order_parents_input_order column_regions _ default_page_box
           column_items).
  - exact (Permutation_rev
             [region "c" (int_box 870 0 970 50) None;
              region "b" (int_box 850 100 950 150) None;
              region "a" (int_box 50 500 150 550) None]).
  - vm_compute. reflexivity.
  - repeat split; repeat constructor.
  - vm_compute. reflexivity.
Defined.

(** ** Text extraction *)

Lemma first_value_skip pre rest :
  Forall (λ e, ¬ has_value e) pre →
  first_value (pre ++ rest) = first_value rest.
Proof.
  induction 1 as [|[k sc] pre Hsc _ IH]; [done|]. simpl.
  destruct sc as [[v|] cid|]; [|done..].
  destruct Hsc. by exists v, cid.
Qed.

Lemma first_value_None subs :
  Forall (λ e, ¬ has_value e) subs → first_value subs = None.
Proof.
  intros H. rewrite <- (app_nil_r subs). by rewrite first_value_skip.
Qed.

(** X15. The text of a word is the value of its first sub-category, in
    order, that has a [value] key, whether or not that value is empty and
    whether or not the word has a [value] of its own; only when no
    sub-category has a [value] key is the word's own [value] used, and the
    text is empty when there is none. *)
Theorem extract_word_text_first_value word_annotation :
  (∀ pre k v cid post,
     sub_categories word_annotation
     = Some (pre ++ (k, SubCatDict (Some v) cid) :: post) →
     Forall (λ e, ¬ has_value e) pre →
     extract_word_text word_annotation = v)
  ∧ ((∀ subs, sub_categories word_annotation = Some subs →
              Forall (λ e, ¬ has_value e) subs) →
     extract_word_text word_annotation
     = default "" (ann_value word_annotation)).
Proof.
  unfold extract_word_text. split.
  - intros pre k v cid post Hsubs Hpre. rewrite Hsubs. simpl.
    by rewrite first_value_skip.
  - intros H. destruct (sub_categories word_annotation) as [subs|]; simpl.
    + rewrite first_value_None by auto. by destruct (ann_value _).
    + by destruct (ann_value _).
Qed.

Lemma extract_word_text_first_value_witness :
  extract_word_text
    {| _annotation_id := "w"; category_name := Some "word";
       bounding_box := None;
       sub_categories :=
         Some ([("reading_order", SubCatDict None (Some 1))]
               ++ ("characters", SubCatDict (Some "") None)
                  :: [("alt", SubCatDict (Some "ignored") None)]);
       ann_value := Some "own"; relationships := None; text := None |}
  = "".
Proof.
  apply (proj1 (extract_word_text_first_value _)
           [("reading_order", SubCatDict None (Some 1))] "characters" ""
           None [("alt", SubCatDict (Some "ignored") None)]).
  - reflexivity.
  - constructor; [|constructor]. intros (v & cid & [=]).
Defined.

(** ** Where the minimum threshold applies *)

(** X16. The threshold is never below 60, and for page widths up to 100000
    it is 60 exactly when the page is at most 762 units wide. *)
Theorem threshold_floor page_bbox page_w threshold :
  page_width page_bbox = Some page_w →
  column_threshold page_bbox = Some threshold →
  60 ≤ threshold
  ∧ (page_w ≤ 100000 → (threshold = 60 ↔ page_w ≤ 762)).
Proof.
  unfold column_threshold. intros Hw H. rewrite Hw in H. simpl in H.
  destruct (scale ratio page_w) as [p|] eqn:E; simplify_eq/=.
  split; [lia|]. intros Hle.
  pose proof (page_extent_pos _ _ _ Hw) as Hpos.
  rewrite scale_ratio_floor in E by lia. simplify_eq.
  destruct (decide (page_w ≤ 762)) as [Hsmall|Hbig].
  - assert (8 * page_w / 100 < 61) by (apply Z.div_lt_upper_bound; lia).
    split; [done|]. intros _. lia.
  - assert (61 ≤ 8 * page_w / 100) by (apply Z.div_le_lower_bound; lia).
    split; [|done]. intros H'. lia.
Qed.

Lemma threshold_floor_witness :
  60 ≤ 80 ∧ (1000 ≤ 100000 → (80 = 60 ↔ 1000 ≤ 762)).
Proof.
  apply (threshold_floor default_page_box 1000 80).
  - vm_compute. reflexivity.
  - vm_compute. reflexivity.
Defined.
